(** * Spectrum_Decisions: crawler, tier loader and exporter

    A shallow embedding of the three scripts of the repository
    ([Decisions.py], [database.py], [testing.py]) and the properties that
    the system description states about them.

    Conventions of the embedding:
    - Python [str] values are Rocq [string]s (byte strings); the regular
      expression engine works on their character lists.
    - A Python call that may raise is a function into [result]; the
      exception classes that the scripts mention or can meet are the
      constructors of [exn].
    - A [dict] is a [gmap] with [string] keys.
    - The libraries the scripts drive (the browser and DOM parser, the JSON
      codec, geopandas/shapely, DuckDB) are not part of the repository.
      Their data is represented by its content (rows of a listing, the
      document a file holds, the rows of a frame or a table) and the
      operations the scripts call on them follow their documented
      behaviour; geometry itself stays abstract. *)

From Stdlib Require Import Ascii String List ZArith Lia.
From stdpp Require Import base option list strings gmap pretty.

(** ** Python-level plumbing *)

Module Py.

(** The exception classes that occur in the three scripts, either named
    in an [except] clause or raised by an operation they perform. *)
Inductive exn :=
| FileNotFoundError
| PermissionError
| JSONDecodeError
| AttributeError
| IndexError
| KeyError
| TypeError
| DatabaseError.

Inductive result (A : Type) :=
| Ok (a : A)
| Raise (e : exn).
Arguments Ok {A} a.
Arguments Raise {A} e.

Definition bind {A B} (m : result A) (k : A → result B) : result B :=
  match m with
  | Ok a => k a
  | Raise e => Raise e
  end.

Definition returns {A} (m : result A) : Prop := ∃ a, m = Ok a.

(** [try: m  except classes: h]. *)
Definition try_except {A} (m : result A) (caught : exn → bool)
    (h : exn → result A) : result A :=
  match m with
  | Ok a => Ok a
  | Raise e => if caught e then h e else Raise e
  end.

(** [IOError] is an alias of [OSError]; of the classes above its
    subclasses are the two file errors. *)
Definition is_OSError (e : exn) : bool :=
  match e with
  | FileNotFoundError | PermissionError => true
  | _ => false
  end.

(** [for x in xs: body], threading a state and stopping at the first
    exception. *)
Fixpoint for_each {A S} (body : S → A → result S) (xs : list A) (s : S)
    : result S :=
  match xs with
  | [] => Ok s
  | x :: xs' => bind (body s x) (for_each body xs')
  end.

(** [sep.join(parts)] *)
Fixpoint join (sep : string) (parts : list string) : string :=
  match parts with
  | [] => ""
  | [p] => p
  | p :: ps => p +:+ sep +:+ join sep ps
  end.

(** [s.startswith(p)] *)
Definition startswith (s p : string) : bool := String.prefix p s.

(** [c in s] for a character [c] *)
Fixpoint contains (c : ascii) (s : string) : bool :=
  match s with
  | EmptyString => false
  | String c' s' => if decide (c' = c) then true else contains c s'
  end.

(** [s.split(sep, 1)] for a one-character separator: the text before
    the first occurrence and the text after it, or the whole text alone
    when the separator does not occur. *)
Fixpoint split_once (sep : ascii) (s : string) : list string :=
  match s with
  | EmptyString => [""]
  | String c s' =>
      if decide (c = sep) then [""; s']
      else match split_once sep s' with
           | [a; b] => [String c a; b]
           | _ => [s]
           end
  end.

End Py.

Global Instance result_ret : MRet Py.result := λ A a, Py.Ok a.
Global Instance result_bind : MBind Py.result := λ A B k m, Py.bind m k.

(** ** The fragment of [re] used by the crawler *)

Module Re.

(** Syntax of the patterns: [\d{lo,hi}], a literal character, [r?],
    a numbered capture group, concatenation and alternation.  All
    quantifiers are greedy, as written in the source. *)
Inductive regex :=
| Digits (lo hi : nat)
| Lit (c : ascii)
| Opt (r : regex)
| Group (i : nat) (r : regex)
| Cat (r1 r2 : regex)
| Alt (r1 r2 : regex).

Definition is_digit (c : ascii) : bool :=
  match Ascii.is_nat c with Some _ => true | None => false end.

Fixpoint digit_run (s : list ascii) : nat :=
  match s with
  | c :: s' => if is_digit c then S (digit_run s') else 0
  | [] => 0
  end.

(** Group number [i] (from 0) holds what group [i+1] of the pattern
    captured, [None] when it did not take part in the match. *)
Definition captures := list (option (list ascii)).

(** [greedy lo hi]: the repetition counts in the order in which a
    greedy quantifier tries them. *)
Definition greedy (lo hi : nat) : list nat :=
  reverse (seq lo (S hi - lo)).

(** All the ways in which [r] matches a prefix of [s], in the order in
    which the backtracking matcher explores them; each comes with the
    captures made so far and the input left. *)
Fixpoint matches (r : regex) (s : list ascii) (caps : captures)
    : list (captures * list ascii) :=
  match r with
  | Digits lo hi =>
      (λ n, (caps, drop n s)) <$> greedy lo (hi `min` digit_run s)
  | Lit c =>
      match s with
      | c' :: s' => if decide (c' = c) then [(caps, s')] else []
      | [] => []
      end
  | Opt r => matches r s caps ++ [(caps, s)]
  | Group i r =>
      (λ m, (<[i := Some (take (length s - length m.2) s)]> m.1, m.2))
        <$> matches r s caps
  | Cat r1 r2 =>
      m ← matches r1 s caps; matches r2 m.2 m.1
  | Alt r1 r2 => matches r1 s caps ++ matches r2 s caps
  end.

(** The match the engine reports at a position: the first one found. *)
Definition match_at (r : regex) (groups : nat) (s : list ascii)
    : option (captures * list ascii) :=
  head (matches r s (replicate groups None)).

(** [re.findall]: scan left to right, report the match at the first
    position that has one and resume after it. [skip] counts the
    characters of the last match still to be passed over. *)
Fixpoint findall_from (r : regex) (groups : nat) (skip : nat)
    (s : list ascii) : list captures :=
  match skip, s with
  | S k, _ :: s' => findall_from r groups k s'
  | S _, [] => []
  | 0, _ =>
      match match_at r groups s with
      | Some (caps, rest) =>
          caps :: match s with
                  | _ :: s' =>
                      findall_from r groups
                        (pred (length s - length rest)) s'
                  | [] => []
                  end
      | None =>
          match s with
          | _ :: s' => findall_from r groups 0 s'
          | [] => []
          end
      end
  end.

(** With several groups in the pattern, [findall] returns one tuple of
    strings per match, the empty string standing for a group that did not
    take part. *)
Definition group_tuple (caps : captures) : list string :=
  (λ g, string_of_list_ascii (default [] g)) <$> caps.

Definition findall (r : regex) (groups : nat) (s : string)
    : list (list string) :=
  group_tuple <$> findall_from r groups 0 (list_ascii_of_string s).

End Re.

(** ** [Decisions.py] *)

Module Decisions.
Import Py Re.

Definition BASE_URL : string := "https://ised-isde.canada.ca".

(** *** [format_frequency_range] *)

(** [(\d{3,4})- ?(\d{3,4})|(\d{3,4})/ ?(\d{3,4})|(\d{3,4})-(\d{3,4})(\d{3,4})-(\d{3,4})] *)
Definition range2 (i j : nat) (sep : ascii) : regex :=
  Cat (Group i (Digits 3 4))
    (Cat (Lit sep) (Cat (Opt (Lit " "%char)) (Group j (Digits 3 4)))).
Definition hyphen_range : regex := range2 0 1 "-".
Definition slash_range : regex := range2 2 3 "/".
Definition concatenated_ranges : regex :=
  Cat (Group 4 (Digits 3 4))
    (Cat (Lit "-"%char)
       (Cat (Group 5 (Digits 3 4))
          (Cat (Group 6 (Digits 3 4))
             (Cat (Lit "-"%char) (Group 7 (Digits 3 4)))))).
Definition pattern : regex :=
  Alt hyphen_range (Alt slash_range concatenated_ranges).

Definition nonempty (s : string) : bool :=
  match s with EmptyString => false | _ => true end.

(** The body of the loop over the matches: what one match contributes
    to [formatted_ranges]. *)
Definition format_match (m : list string) : list string :=
  match filter (λ g, nonempty g = true) m with
  | [a; b] => [a +:+ "-" +:+ b]
  | [a; b; c; d] => [a +:+ "-" +:+ b +:+ " " +:+ c +:+ "-" +:+ d]
  | _ => []
  end.

Definition format_frequency_range (freq_range : string) : string :=
  let found := findall pattern 8 freq_range in
  join " " (found ≫= format_match).

(** *** Values read back from the cursor file

    What [json.load] can return: [None], booleans, numbers, strings,
    lists and dictionaries. *)
#[warnings="-register-all"]
Inductive value :=
| VNone
| VBool (b : bool)
| VInt (z : Z)
| VStr (s : string)
| VList (l : list value)
| VDict (d : gmap string value).

(** [s == v] for a string [s] and an arbitrary value [v]. *)
Definition str_eq (s : string) (v : value) : bool :=
  match v with
  | VStr t => bool_decide (s = t)
  | _ => false
  end.

(** [data.get(key)]: only dictionaries have the method. *)
Definition get (data : value) (key : string) : result value :=
  match data with
  | VDict d => Ok (default VNone (d !! key))
  | _ => Raise AttributeError
  end.

(** *** The cursor file

    [LAST_VISITED_FILE] either does not exist or holds some text, which
    is a JSON document or is not.  Opening it for writing succeeds or
    fails with an [OSError] (missing directory, no permission). *)
Inductive content :=
| NotJson
| Json (v : value).

Record filesystem := {
  last_visited_file : option content;
  writable : bool
}.

Definition open_r (fs : filesystem) : result content :=
  match last_visited_file fs with
  | Some c => Ok c
  | None => Raise FileNotFoundError
  end.

Definition json_load (c : content) : result value :=
  match c with
  | Json v => Ok v
  | NotJson => Raise JSONDecodeError
  end.

Definition get_last_visited (fs : filesystem) : result value :=
  try_except
    (file ← open_r fs;
     data ← json_load file;
     get data "last_visited")
    (λ e, match e with
          | FileNotFoundError | JSONDecodeError => true
          | _ => false
          end)
    (λ _, Ok VNone).

(** [open(LAST_VISITED_FILE, 'w')] followed by [json.dump]. *)
Definition open_w_dump (v : value) (fs : filesystem) : result filesystem :=
  if writable fs
  then Ok {| last_visited_file := Some (Json v); writable := true |}
  else Raise PermissionError.

Definition save_last_visited (href : string) (fs : filesystem)
    : result filesystem :=
  try_except
    (open_w_dump (VDict {[ "last_visited" := VStr href ]}) fs)
    is_OSError
    (λ _, Ok fs).

(** *** [extract_decision_links]

    The listing is given by its rows ([tbody tr[role="row"]] in document
    order); of a row only the [href] of its first anchor that has one
    matters, [None] when the row has no such anchor. *)
Definition full_href (href : string) : string :=
  if startswith href "http" then href else BASE_URL +:+ href.

(** The loop over [decision_rows], with [links] as accumulator. *)
Fixpoint scan_rows (decision_rows : list (option string))
    (last_visited : value) (links : list string) : list string :=
  match decision_rows with
  | [] => links
  | None :: rows' => scan_rows rows' last_visited links
  | Some href :: rows' =>
      if str_eq (full_href href) last_visited
      then links
      else scan_rows rows' last_visited (links ++ [full_href href])
  end.

Definition extract_decision_links (decision_rows : list (option string))
    (last_visited : value) : list string :=
  reverse (scan_rows decision_rows last_visited []).

(** *** [extract_data]

    A decision page is given by its first [table.table-bordered], if
    any: the optional text of its [caption.bg-primary] and, for each
    [tr], the texts of the [th] and of the [td] cells, as returned by
    [get_text(strip=True)]. *)
Record tr := { th : list string; td : list string }.
Record html_table := { caption : option string; trs : list tr }.
Record page := { bordered_table : option html_table }.

(** [text.replace(' ', ' ')]; U+00A0 is the byte pair C2 A0. *)
Fixpoint replace_nbsp (s : string) : string :=
  match s with
  | String "194"%char (String "160"%char s') =>
      String " "%char (replace_nbsp s')
  | String c s' => String c (replace_nbsp s')
  | EmptyString => EmptyString
  end.

(** [{headers[i]: text(col) for i, col in enumerate(cols)}] *)
Definition build_record (headers cols : list string)
    : result (gmap string string) :=
  for_each
    (λ data '(i, col),
       match headers !! i with
       | Some h => Ok (<[h := replace_nbsp col]> data)
       | None => Raise IndexError
       end)
    (imap pair cols) ∅.

Definition frequency_fields : list string :=
  [ "Frequency range (MHz)";
    "Frequency range (MHz) of the primary licence";
    "Frequency range (MHz) of the subordinate licence" ].

Definition format_field (data : gmap string string) (field : string)
    : gmap string string :=
  match data !! field with
  | Some v => <[field := format_frequency_range v]> data
  | None => data
  end.

Definition tier_fields : list string :=
  [ "Tier number and geographic area of the licence";
    "Tier number and geographic area of the subordinate licence";
    "Tier number and geographic area of the primary licence" ].

(** One iteration of [for field in tier_fields]. *)
Definition split_field (data : gmap string string) (field : string)
    : gmap string string :=
  match data !! field with
  | Some tier_geo =>
      let data' :=
        match split_once " "%char tier_geo with
        | [p0; p1] =>
            <["Geographic area of the licence" := p1]>
              (<["Tier number" := p0]> data)
        | _ => data
        end in
      delete field data'
  | None => data
  end.

Definition process_row (headers : list string) (table_title : string)
    (row : tr) : result (gmap string string) :=
  data ← build_record headers (td row);
  let data := foldl format_field data frequency_fields in
  let data := foldl split_field data tier_fields in
  Ok (<["Table Title" := table_title]> data).

Definition extract_data (soup : option page)
    : result (list (gmap string string)) :=
  match soup with
  | None => Ok []
  | Some doc =>
      let table_title :=
        match bordered_table doc with
        | Some t => default "Unknown Table Title" (caption t)
        | None => "Unknown Table Title"
        end in
      match bordered_table doc with
      | Some {| trs := first :: rest |} =>
          let headers := replace_nbsp <$> th first in
          for_each
            (λ data_list row,
               data ← process_row headers table_title row;
               Ok (data_list ++ [data]))
            rest []
      | _ => Ok []
      end
  end.

(** *** [main]

    The site as the browser session shows it: the rows of the listing
    page, [None] when [fetch_and_parse_url] fails, and for a decision
    link what [fetch_decision_page] returns, [None] when it fails. *)
Record site := {
  listing : option (list (option string));
  decision_page : string → option page
}.

(** What a run leaves behind: the cursor file, the records it logged,
    and the exception that ended it, if any.  The effects made before an
    exception stay. *)
Record outcome := {
  files : filesystem;
  emitted : list (gmap string string);
  raised : option exn
}.

(** The loop over [decision_links]. *)
Fixpoint visit_links (web : site) (decision_links : list string)
    (fs : filesystem) (log : list (gmap string string)) : outcome :=
  match decision_links with
  | [] => {| files := fs; emitted := log; raised := None |}
  | decision_link :: links' =>
      match extract_data (decision_page web decision_link) with
      | Raise e => {| files := fs; emitted := log; raised := Some e |}
      | Ok decision_data =>
          match save_last_visited decision_link fs with
          | Raise e =>
              {| files := fs; emitted := log ++ decision_data;
                 raised := Some e |}
          | Ok fs' => visit_links web links' fs' (log ++ decision_data)
          end
      end
  end.

Definition main (web : site) (fs : filesystem) : outcome :=
  match get_last_visited fs with
  | Raise e => {| files := fs; emitted := []; raised := Some e |}
  | Ok last_visited =>
      match listing web with
      | None => {| files := fs; emitted := []; raised := None |}
      | Some main_soup =>
          visit_links web (extract_decision_links main_soup last_visited)
            fs []
      end
  end.

End Decisions.


(** ** [database.py] *)

Module Database.
Import Py.

(** *** Frames

    A (Geo)DataFrame is its column names and its rows.  A cell holds an
    attribute value, represented by the text [str] gives for it, a
    missing value (NaN / [None]), the label of a row of another frame,
    or a geometry. *)
Inductive cell (G : Type) :=
| Text (s : string)
| NaN
| RowLabel (i : nat)
| Shape (g : G).
Arguments Text {G} s.
Arguments NaN {G}.
Arguments RowLabel {G} i.
Arguments Shape {G} g.

Record GeoDataFrame (G : Type) := {
  columns : list string;
  rows : list (list (cell G))
}.
Arguments columns {G} _.
Arguments rows {G} _.

(** *** The store

    A DuckDB database is its tables, by name; a table is its column
    names and its rows, every cell a text or NULL. *)
Record table := {
  schema : list string;
  body : list (list (option string))
}.

Definition Service_Area : string := "Service_Area_Zone_de_service".

Definition table_exists (conn : gmap string table) (table_name : string)
    : bool :=
  bool_decide (is_Some (conn !! table_name)).

(** [f'Tier{tier}_Areas'] *)
Definition table_name_of (tier : nat) : string :=
  "Tier" +:+ pretty tier +:+ "_Areas".

(** What a run of [main] prints. *)
Record report := {
  printed_count : nat;
  printed_names : list string;
  printed_columns : option (list string)
}.

Section Geo.
(** Geometries, the "intersects" predicate of the spatial join, the
    well-known-text of a geometry and the text of a row label are
    those of geopandas, shapely and pandas. *)
Context {G : Type}.
Variable intersects : G → G → bool.
Variable wkt : G → string.
Variable str_label : nat → string.

Definition column_index (name : string) (cols : list string)
    : option nat :=
  fst <$> list_find (λ c, c = name) cols.

(** [row[name]] *)
Definition row_get (gdf_columns : list string) (row : list (cell G))
    (name : string) : option (cell G) :=
  i ← column_index name gdf_columns; row !! i.

Definition row_geometry (gdf_columns : list string)
    (row : list (cell G)) : option G :=
  c ← row_get gdf_columns row "geometry";
  match c with Shape g => Some g | _ => None end.

(** [gdf[[c1, c2]]]: a [KeyError] when a column is missing. *)
Definition select2 (gdf : GeoDataFrame G) (c1 c2 : string)
    : result (GeoDataFrame G) :=
  match column_index c1 (columns gdf), column_index c2 (columns gdf) with
  | Some i1, Some i2 =>
      Ok {| columns := [c1; c2];
            rows := (λ row, [default NaN (row !! i1);
                             default NaN (row !! i2)]) <$> rows gdf |}
  | _, _ => Raise KeyError
  end.

(** A feature without geometry intersects nothing. *)
Definition intersecting (a b : option G) : bool :=
  match a, b with
  | Some x, Some y => intersects x y
  | _, _ => false
  end.

(** The rows of [right] that a row of [left] intersects, with their
    labels. *)
Definition partners (left right : GeoDataFrame G) (lrow : list (cell G))
    : list (nat * list (cell G)) :=
  filter (λ p, intersecting (row_geometry (columns left) lrow)
                 (row_geometry (columns right) p.2) = true)
    (imap pair (rows right)).

(** [gpd.sjoin(left, right, how="left", predicate="intersects")] for a
    [right] frame that has the area column and the geometry, as the
    loader passes it.  Every row of [left] is kept: once per partner,
    extended with the partner's label and area, or once with missing
    values when it has no partner.  The area column common to both
    sides gets the suffixes [_left] and [_right]. *)
Definition sjoin_left (left right : GeoDataFrame G) : GeoDataFrame G :=
  let shared := bool_decide (Service_Area ∈ columns left) in
  {| columns :=
       ((λ c, if decide (c = Service_Area)
              then Service_Area +:+ "_left" else c) <$> columns left)
       ++ ["index_right";
           if shared then Service_Area +:+ "_right" else Service_Area];
     rows :=
       lrow ← rows left;
       match partners left right lrow with
       | [] => [lrow ++ [NaN; NaN]]
       | ps =>
           (λ p, lrow ++ [RowLabel p.1;
                          default NaN
                            (row_get (columns right) p.2 Service_Area)])
             <$> ps
       end |}.

(** [gdf.rename(columns=mapping)] with a two-entry mapping. *)
Definition rename (gdf : GeoDataFrame G) (from1 to1 from2 to2 : string)
    : GeoDataFrame G :=
  {| columns :=
       (λ c, if decide (c = from1) then to1
             else if decide (c = from2) then to2 else c) <$> columns gdf;
     rows := rows gdf |}.

(** [tier_gdfs[-1]] *)
Definition last_item {A} (l : list A) : result A :=
  match last l with
  | Some x => Ok x
  | None => Raise IndexError
  end.

(** *** [load_and_join_tiers]

    The unpacked archive is given by what the loader reads from it:
    for a tier number, the layer of the first file matching
    [Tier{n}_Niveau{n}_*.tab], or [None] when no file matches. *)
Definition load_tier (archive : nat → option (GeoDataFrame G))
    (tier_gdfs : list (GeoDataFrame G)) (tier : nat)
    : result (list (GeoDataFrame G)) :=
  match archive tier with
  | None => Ok tier_gdfs
  | Some tier_gdf =>
      tier_gdf ←
        (if decide (1 < tier) then
           prev ← last_item tier_gdfs;
           right ← select2 prev Service_Area "geometry";
           Ok (rename (sjoin_left tier_gdf right)
                 (Service_Area +:+ "_left") Service_Area
                 (Service_Area +:+ "_right")
                 ("Tier" +:+ pretty (tier - 1) +:+ "_" +:+ Service_Area))
         else Ok tier_gdf);
      Ok (tier_gdfs ++ [tier_gdf])
  end.

Definition load_and_join_tiers (archive : nat → option (GeoDataFrame G))
    (num_tiers : nat) : result (list (GeoDataFrame G)) :=
  for_each (load_tier archive) (seq 1 num_tiers) [].

(** *** [create_and_populate_tables] *)

(** [str(value)] *)
Definition str (c : cell G) : string :=
  match c with
  | Text s => s
  | NaN => "nan"
  | RowLabel i => str_label i
  | Shape g => wkt g
  end.

(** [[str(row[col]) if col != 'geometry' else row['geometry'].wkt
      for col in gdf.columns]] *)
Definition row_data (gdf_columns : list string) (row : list (cell G))
    : result (list (option string)) :=
  for_each
    (λ acc col,
       match row_get gdf_columns row col with
       | None => Raise KeyError
       | Some c =>
           if decide (col = "geometry") then
             match c with
             | Shape g => Ok (acc ++ [Some (wkt g)])
             | _ => Raise AttributeError
             end
           else Ok (acc ++ [Some (str c)])
       end)
    gdf_columns [].

Definition rows_to_insert (gdf : GeoDataFrame G)
    : result (list (list (option string))) :=
  for_each
    (λ acc row, data ← row_data (columns gdf) row; Ok (acc ++ [data]))
    (rows gdf) [].

(** [INSERT INTO name VALUES (?, ..., ?)] with [width] placeholders,
    executed for each row: the table must exist and have [width]
    columns; the rows are appended. *)
Definition executemany_insert (conn : gmap string table)
    (name : string) (width : nat) (new : list (list (option string)))
    : result (gmap string table) :=
  match conn !! name with
  | Some t =>
      if decide (length (schema t) = width)
      then Ok (<[name := {| schema := schema t;
                            body := body t ++ new |}]> conn)
      else Raise DatabaseError
  | None => Raise DatabaseError
  end.

(** One iteration of the loop over [enumerate(tier_gdfs, start=1)]. *)
Definition populate (conn : gmap string table)
    (item : nat * GeoDataFrame G) : result (gmap string table) :=
  let '(tier, gdf) := item in
  let table_name := table_name_of tier in
  let new_schema :=
    filter (λ col, col ≠ "geometry") (columns gdf) ++ ["Geometry"] in
  let conn :=
    if table_exists conn table_name then conn
    else <[table_name := {| schema := new_schema; body := [] |}]> conn in
  new ← rows_to_insert gdf;
  executemany_insert conn table_name (length (columns gdf)) new.

Definition create_and_populate_tables (conn : gmap string table)
    (tier_gdfs : list (GeoDataFrame G)) : result (gmap string table) :=
  for_each populate (imap (λ i gdf, (S i, gdf)) tier_gdfs) conn.

(** *** [main]

    A run of the script on an archive and the database at
    [database_path].  The layers of five tiers are loaded before the
    database is opened; then they are written, and the run prints the
    number of layers, the names [Tier{i}_Areas] for that many [i] and,
    when there is one, the columns of the first of these tables. *)
Definition main (archive : nat → option (GeoDataFrame G))
    (conn : gmap string table) : result (gmap string table * report) :=
  tier_gdfs ← load_and_join_tiers archive 5;
  conn ← create_and_populate_tables conn tier_gdfs;
  let num_tiers_processed := length tier_gdfs in
  let table_names := table_name_of <$> seq 1 num_tiers_processed in
  columns ←
    match table_names with
    | sample_table_name :: _ =>
        match conn !! sample_table_name with
        | Some t => Ok (Some (schema t))
        | None => Raise DatabaseError
        end
    | [] => Ok None
    end;
  Ok (conn, {| printed_count := num_tiers_processed;
               printed_names := table_names;
               printed_columns := columns |}).

End Geo.
End Database.

(** ** [testing.py] *)

Module Testing.
Import Py Database.


Section Reader.
Context {G : Type}.
(** [shapely.wkt.loads] on a text: the geometry the text denotes,
    [None] when it raises a [ShapelyError]. *)
Variable wkt_loads : string → option G.
(** What [pd.read_sql] puts in the frame for a NULL of a text column:
    the float [nan] when the column gets the [str] dtype (pandas 3),
    [None] when it is an object column (earlier versions). *)
Variable null_is_nan : bool.

(** [wkt.loads(row) if row else None], with [ShapelyError] caught.  A
    non-empty text is true and is parsed.  The empty text and [None]
    are false.  The float [nan] is true, and [wkt.loads] of a value
    that is not a text raises a [TypeError], which the [except] clause
    does not name. *)
Definition convert_geometry (row : option string) : result (cell G) :=
  match row with
  | Some (String c s) =>
      match wkt_loads (String c s) with
      | Some g => Ok (Shape g)
      | None => Ok NaN
      end
  | Some EmptyString => Ok NaN
  | None => if null_is_nan then Raise TypeError else Ok NaN
  end.

(** [series.apply(f)]: [f] on each element in turn; the first exception
    ends the call. *)
Fixpoint series_apply {A B} (f : A → result B) (series : list A)
    : result (list B) :=
  match series with
  | [] => Ok []
  | x :: series' =>
      y ← f x;
      ys ← series_apply f series';
      Ok (y :: ys)
  end.

(** A cell as [pd.read_sql] delivers it. *)
Definition sql_cell (v : option string) : cell G :=
  match v with
  | Some s => Text s
  | None => NaN
  end.

(** [df[name]] for the column at index [k]; a row of a table has a cell
    for every column. *)
Definition column_at (k : nat) (body : list (list (option string)))
    : list (option string) :=
  (λ row, default None (row !! k)) <$> body.

Definition read_table_as_gdf (conn : gmap string table)
    (table_name : string) : result (GeoDataFrame G) :=
  match conn !! table_name with
  | None => Raise DatabaseError
  | Some t =>
      match column_index "Geometry" (schema t) with
      | Some k =>
          geometry ← series_apply convert_geometry (column_at k (body t));
          Ok {| columns := schema t;
                rows := zip_with
                          (λ row g,
                             imap (λ j v, if decide (j = k) then g
                                          else sql_cell v) row)
                          (body t) geometry |}
      | None =>
          Ok {| columns := schema t;
                rows := (λ row : list (option string), sql_cell <$> row)
                        <$> body t |}
      end
  end.

End Reader.
End Testing.

Import Py Re Decisions Database Testing.

(** ** Vocabulary of the statements *)

(** The links of the rows that have one, resolved, in source order. *)
Definition row_links (rows : list (option string)) : list string :=
  full_href <$> omap id rows.

(** Position, in the sequence the loader returns, of the layer of tier
    [k]: the number of tiers below [k] that have a file. *)
Definition position {G} (archive : nat → option (GeoDataFrame G)) (k : nat)
    : nat :=
  length (filter (λ j, is_Some (archive j)) (seq 1 (k - 1))).

(** The rows a store holds under a name; none when there is no such
    table. *)
Definition stored_rows (conn : gmap string table) (name : string)
    : list (list (option string)) :=
  match conn !! name with
  | Some t => body t
  | None => []
  end.

(** A number of the frequency pattern: three or four decimal digits. *)
Definition number34 (a : list ascii) : Prop :=
  3 ≤ length a ≤ 4 ∧ Forall (λ c, is_digit c = true) a.

(** The canonical text of one range. *)
Definition range_text (r : list ascii * list ascii) : string :=
  string_of_list_ascii r.1 +:+ "-" +:+ string_of_list_ascii r.2.

(** The captures of a reported match: the two numbers of a hyphen range
    or of a slash range. *)
Definition range_captures (c : captures) (a b : list ascii) : Prop :=
  c = [Some a; Some b; None; None; None; None; None; None] ∨
  c = [None; None; Some a; Some b; None; None; None; None].

(** The separators the pattern accepts between the two numbers of a
    range: a hyphen or a slash, with or without a space after it. *)
Definition separator (slash space : bool) : list ascii :=
  (if slash then "/"%char else "-"%char)
  :: (if space then [" "%char] else []).

(** The loop behind the dictionary comprehension of [extract_data],
    started at cell number [n]. *)
Definition build_from (headers : list string) (n : nat) (cols : list string)
    (data : gmap string string) : result (gmap string string) :=
  for_each
    (λ data '(i, col),
       match headers !! i with
       | Some h => Ok (<[h := replace_nbsp col]> data)
       | None => Raise IndexError
       end)
    (imap (λ i col, (n + i, col)) cols) data.

(** What [row_data] makes of one column of a row: the text of the cell,
    which for the geometry column is a geometry. *)
Definition column_text {G} (wkt : G → string) (str_label : nat → string)
    (gdf_columns : list string) (row : list (cell G)) (col : string)
    (text : option string) : Prop :=
  ∃ c, row_get gdf_columns row col = Some c ∧
       text = Some (str wkt str_label c) ∧
       (col = "geometry" → ∃ g, c = Shape g).

(** ** Sample data *)

(** A decision table with one data row, whose combined field holds [v]. *)
Definition licence_page (v : string) : page :=
  {| bordered_table :=
       Some {| caption := Some "Licence transfer";
               trs := [ {| th := ["Tier number and geographic area of the licence";
                               "Frequency range (MHz)"];
                           td := [] |};
                        {| th := []; td := [v; "470/ 512"] |} ] |} |}.

Definition records_of (soup : option page) : list (gmap string string) :=
  match extract_data soup with
  | Ok records => records
  | Raise _ => []
  end.

(** Two small service-area layers over intervals of the line; an interval
    is its two end points, and two intervals intersect when they share a
    point. *)
Definition overlap (a b : nat * nat) : bool :=
  bool_decide (a.1 ≤ b.2 ∧ b.1 ≤ a.2).

Definition provinces : GeoDataFrame (nat * nat) :=
  {| columns := ["Service_Area_Zone_de_service"; "Name"; "geometry"];
     rows := [ [Text "1-001"; Text "East"; Shape (0, 9)];
               [Text "1-002"; Text "West"; Shape (10, 19)] ] |}.

Definition districts : GeoDataFrame (nat * nat) :=
  {| columns := ["Service_Area_Zone_de_service"; "geometry"];
     rows := [ [Text "3-001"; Shape (2, 3)];
               [Text "3-002"; Shape (30, 31)] ] |}.

(** Files for tiers 1 and 3 only. *)
Definition archive_1_3 (tier : nat) : option (GeoDataFrame (nat * nat)) :=
  match tier with
  | 1 => Some provinces
  | 3 => Some districts
  | _ => None
  end.

Definition interval_wkt (g : nat * nat) : string :=
  "LINESTRING (" +:+ pretty g.1 +:+ " 0, " +:+ pretty g.2 +:+ " 0)".

(** A file for tier 2 only. *)
Definition archive_2 (tier : nat) : option (GeoDataFrame (nat * nat)) :=
  match tier with
  | 2 => Some districts
  | _ => None
  end.

(** A reader of well-known text that knows the intervals of the example
    layers. *)
Definition interval_loads (s : string) : option (nat * nat) :=
  snd <$> list_find (λ g, interval_wkt g = s)
            [(0, 9); (10, 19); (2, 3); (30, 31)].

Definition store_with_bad_geometry : gmap string table :=
  {[ "Tier1_Areas" :=
       {| schema := ["Service_Area_Zone_de_service"; "Name"; "Geometry"];
          body := [ [Some "1-001"; Some "East"; Some "LINESTRING (0 0, 9 0)"];
                    [Some "1-002"; Some "West"; Some "LINESTRING (10 0"] ] |} ]}.

(** A tier-1 layer that lacks the area column. *)
Definition unnamed_provinces : GeoDataFrame (nat * nat) :=
  {| columns := ["Name"; "geometry"];
     rows := [ [Text "East"; Shape (0, 9)] ] |}.

Definition archive_unnamed (tier : nat) : option (GeoDataFrame (nat * nat)) :=
  match tier with
  | 1 => Some unnamed_provinces
  | 3 => Some districts
  | _ => None
  end.


(** The same table with a third row, whose geometry is NULL. *)
Definition store_with_null_geometry : gmap string table :=
  {[ "Tier1_Areas" :=
       {| schema := ["Service_Area_Zone_de_service"; "Name"; "Geometry"];
          body := [ [Some "1-001"; Some "East"; Some "LINESTRING (0 0, 9 0)"];
                    [Some "1-002"; Some "West"; Some "LINESTRING (10 0"];
                    [Some "1-003"; Some "North"; None] ] |} ]}.

(** A table whose row has two of the combined fields. *)
Definition two_fields_page : page :=
  {| bordered_table :=
       Some {| caption := Some "Subordinate licence";
               trs := [ {| th := ["Tier number and geographic area of the primary licence";
                               "Tier number and geographic area of the subordinate licence"];
                           td := [] |};
                        {| th := [];
                           td := ["2-076 Toronto"; "4-077 Oshawa"] |} ] |} |}.

(** A decision table whose data row has one cell more than the header. *)
Definition wide_page : page :=
  {| bordered_table :=
       Some {| caption := None;
               trs := [ {| th := ["Licensee"]; td := [] |};
                        {| th := []; td := ["Acme"; "stray"] |} ] |} |}.

Definition writable_disk : filesystem :=
  {| last_visited_file := None; writable := true |}.

(** A site with two decisions listed, of which the older cannot be
    fetched. *)
Definition small_site : site :=
  {| listing := Some [Some "/d/2"; None; Some "/d/1"];
     decision_page := λ l,
       if decide (l = full_href "/d/2")
       then Some (licence_page "Tier 3 Southern Ontario") else None |}.


(** The [i]-th record of a page, together with the dictionary built from
    the cells of the [i]-th data row of its table. *)
Definition row_record (doc : page) (i : nat)
    (cells r : gmap string string) : Prop :=
  ∃ t first rest records row,
    bordered_table doc = Some t ∧
    trs t = first :: rest ∧
    extract_data (Some doc) = Ok records ∧
    rest !! i = Some row ∧
    records !! i = Some r ∧
    build_record (replace_nbsp <$> th first) (td row) = Ok cells.

(** * Properties *)

(** ** Loops *)

Lemma for_each_app {A S} (body : S → A → result S) (xs ys : list A) (s : S) :
  for_each body (xs ++ ys) s = bind (for_each body xs s) (for_each body ys).
Proof.
  revert s. induction xs as [|x xs IH]; intros s; simpl; [done|].
  destruct (body s x); simpl; [apply IH|done].
Qed.

Lemma for_each_cons {A S} (body : S → A → result S) x (xs : list A) (s : S) :
  for_each body (x :: xs) s = bind (body s x) (for_each body xs).
Proof. done. Qed.

Lemma bind_Ok {A B} (m : result A) (k : A → result B) (b : B) :
  bind m k = Ok b ↔ ∃ a, m = Ok a ∧ k a = Ok b.
Proof.
  destruct m as [a|e]; simpl; split.
  - eauto.
  - by intros (a' & [= <-] & ?).
  - done.
  - by intros (a' & [=] & ?).
Qed.

(** ** The frequency formatter *)

Section matcher.
Implicit Types (r : regex) (s rest : list ascii) (caps c : captures).

Lemma elem_of_greedy n lo hi : n ∈ greedy lo hi ↔ lo ≤ n ≤ hi.
Proof.
  unfold greedy. rewrite elem_of_reverse, elem_of_seq. lia.
Qed.

Lemma elem_of_matches_Digits lo hi s caps c rest :
  (c, rest) ∈ matches (Digits lo hi) s caps ↔
  c = caps ∧ ∃ n, lo ≤ n ≤ hi `min` digit_run s ∧ rest = drop n s.
Proof.
  simpl. rewrite list_elem_of_fmap. setoid_rewrite elem_of_greedy.
  split.
  - intros (n & Heq & Hn). injection Heq as -> ->. eauto.
  - intros (-> & n & Hn & ->). eauto.
Qed.

Lemma elem_of_matches_Lit ch s caps c rest :
  (c, rest) ∈ matches (Lit ch) s caps ↔ c = caps ∧ s = ch :: rest.
Proof.
  simpl. destruct s as [|c' s'].
  - rewrite elem_of_nil. split; [done | by intros [_ ?]].
  - case_decide as Hc; subst.
    + rewrite list_elem_of_singleton. split.
      * by intros [= -> ->].
      * by intros [-> [= ->]].
    + rewrite elem_of_nil. split; [done|].
      intros [_ [= ? _]]. by destruct Hc.
Qed.

Lemma elem_of_matches_Group i r s caps c rest :
  (c, rest) ∈ matches (Group i r) s caps ↔
  ∃ c0, (c0, rest) ∈ matches r s caps ∧
        c = <[i := Some (take (length s - length rest) s)]> c0.
Proof.
  simpl. rewrite list_elem_of_fmap. split.
  - intros ([c0 r0] & Heq & Hin). injection Heq as -> ->. eauto.
  - intros (c0 & Hin & ->). exists (c0, rest). eauto.
Qed.

Lemma elem_of_matches_Cat r1 r2 s caps c rest :
  (c, rest) ∈ matches (Cat r1 r2) s caps ↔
  ∃ c1 s1, (c1, s1) ∈ matches r1 s caps ∧ (c, rest) ∈ matches r2 s1 c1.
Proof.
  simpl. rewrite list_elem_of_bind. split.
  - intros ([c1 s1] & ? & ?). eauto.
  - intros (c1 & s1 & ? & ?). exists (c1, s1). eauto.
Qed.

Lemma elem_of_matches_Opt r s caps c rest :
  (c, rest) ∈ matches (Opt r) s caps ↔
  (c, rest) ∈ matches r s caps ∨ (c = caps ∧ rest = s).
Proof.
  simpl. rewrite elem_of_app, list_elem_of_singleton. split.
  - intros [?|[= -> ->]]; auto.
  - intros [?|[-> ->]]; auto.
Qed.

Lemma matches_Alt r1 r2 s caps :
  matches (Alt r1 r2) s caps = matches r1 s caps ++ matches r2 s caps.
Proof. done. Qed.

(** A two-number range [a sep b] sets its two groups and no other. *)
Lemma range2_captures i j sep s caps c rest :
  (c, rest) ∈ matches (range2 i j sep) s caps →
  ∃ a b, c = <[j := Some b]> (<[i := Some a]> caps).
Proof.
  unfold range2.
  rewrite elem_of_matches_Cat. intros (c1 & s1 & H1 & H).
  apply elem_of_matches_Group in H1 as (c0 & H0 & Hc1).
  apply elem_of_matches_Digits in H0 as [Hc0 _].
  apply elem_of_matches_Cat in H as (c2 & s2 & H2 & H).
  apply elem_of_matches_Lit in H2 as [Hc2 _].
  apply elem_of_matches_Cat in H as (c3 & s3 & H3 & H).
  assert (c3 = c2) as Hc3.
  { apply elem_of_matches_Opt in H3 as [H3 | [? _]]; [|done].
    by apply elem_of_matches_Lit in H3 as [? _]. }
  apply elem_of_matches_Group in H as (c4 & H4 & Hc).
  apply elem_of_matches_Digits in H4 as [Hc4 _].
  subst. eauto.
Qed.

(** Wherever the concatenated form matches, the plain hyphen form
    matches too. *)
Lemma hyphen_range_shadows s caps c rest :
  (c, rest) ∈ matches concatenated_ranges s caps →
  matches hyphen_range s caps ≠ [].
Proof.
  unfold concatenated_ranges.
  rewrite elem_of_matches_Cat. intros (c1 & s1 & H1 & H).
  apply elem_of_matches_Group in H1 as (c0 & H0 & _).
  apply elem_of_matches_Cat in H as (c2 & s2 & H2 & H).
  apply elem_of_matches_Lit in H2 as [_ Hs1]. subst s1.
  apply elem_of_matches_Cat in H as (c3 & s3 & H3 & _).
  apply elem_of_matches_Group in H3 as (c4 & H4 & _).
  apply elem_of_matches_Digits in H4 as (_ & n & Hn & _).
  pose (g0 := Some (take (length s - length ("-"%char :: s2)) s)).
  pose (g1 := Some (take (length s2 - length (drop 3 s2)) s2)).
  assert ((<[1 := g1]> (<[0 := g0]> caps), drop 3 s2)
            ∈ matches hyphen_range s caps) as Hin.
  { unfold hyphen_range, range2. apply elem_of_matches_Cat.
    exists (<[0 := g0]> caps), ("-"%char :: s2). split.
    { apply elem_of_matches_Group. exists caps. split; [|done].
      apply elem_of_matches_Digits in H0 as (_ & n0 & Hn0 & Hd).
      apply elem_of_matches_Digits. eauto. }
    apply elem_of_matches_Cat. exists (<[0 := g0]> caps), s2. split.
    { by apply elem_of_matches_Lit. }
    apply elem_of_matches_Cat. exists (<[0 := g0]> caps), s2. split.
    { apply elem_of_matches_Opt. by right. }
    apply elem_of_matches_Group. exists (<[0 := g0]> caps).
    split; [|done].
    apply elem_of_matches_Digits. split; [done|].
    exists 3. split; [lia|done]. }
  intros Hnil. rewrite Hnil in Hin. by apply elem_of_nil in Hin.
Qed.

Lemma match_at_pattern s c rest :
  match_at pattern 8 s = Some (c, rest) →
  ∃ a b, c = [Some a; Some b; None; None; None; None; None; None] ∨
         c = [None; None; Some a; Some b; None; None; None; None].
Proof.
  unfold match_at, pattern.
  rewrite !matches_Alt. intros Hhead. apply head_Some_elem_of in Hhead as Hin.
  destruct (matches hyphen_range s (replicate 8 None)) as [|m ms] eqn:Hh.
  - destruct (matches slash_range s (replicate 8 None)) as [|m ms] eqn:Hs.
    + simpl in Hin. apply hyphen_range_shadows in Hin. by destruct Hin.
    + simpl in Hhead. injection Hhead as ->.
      assert ((c, rest) ∈ matches slash_range s (replicate 8 None)) as H
        by (rewrite Hs; left).
      apply range2_captures in H as (a & b & ->). exists a, b. by right.
  - simpl in Hhead. injection Hhead as ->.
    assert ((c, rest) ∈ matches hyphen_range s (replicate 8 None)) as H
      by (rewrite Hh; left).
    apply range2_captures in H as (a & b & ->). exists a, b. by left.
Qed.

Lemma findall_from_pattern s k c :
  c ∈ findall_from pattern 8 k s →
  ∃ a b, c = [Some a; Some b; None; None; None; None; None; None] ∨
         c = [None; None; Some a; Some b; None; None; None; None].
Proof.
  revert k. induction s as [|ch s IH]; intros k.
  - destruct k as [|k]; simpl; by intros ?%elem_of_nil.
  - destruct k as [|k]; simpl; [|by apply IH].
    destruct (match_at pattern 8 (ch :: s)) as [[c' rest]|] eqn:Hm;
      [|by apply IH].
    intros [->|Hin]%elem_of_cons; [|by eapply IH].
    eauto using match_at_pattern.
Qed.

End matcher.

(** No match that [findall] reports has more than two non-empty groups:
    the branch of [format_frequency_range] for four numbers is never taken,
    whatever the input. *)
Lemma four_numbers_never_found (freq_range : string) (m : list string) :
  m ∈ findall pattern 8 freq_range →
  length (filter (λ g, nonempty g = true) m) ≤ 2.
Proof.
  unfold findall. intros (c & -> & Hc)%list_elem_of_fmap.
  apply findall_from_pattern in Hc as (a & b & [-> | ->]); simpl;
    repeat (rewrite filter_cons; case_decide; simpl in *; try discriminate);
    rewrite ?filter_nil; simpl; lia.
Qed.

(** Text in which the pattern matches nowhere is formatted as the empty
    string. *)
Lemma format_frequency_range_unrecognized (freq_range : string) :
  findall pattern 8 freq_range = [] → format_frequency_range freq_range = "".
Proof. unfold format_frequency_range. by intros ->. Qed.

(** C1: on the three inputs of the description the formatter returns
    ["470-512"], ["470-512"] and, for the two ranges written without a
    separator, ["470-5124"]: the hyphen alternative matches first and
    swallows the leading digit of the second range, so the canonical
    two-range shape ["470-512 480-500"] is not produced. *)
Theorem format_frequency_range_examples :
  format_frequency_range "470-512" = "470-512" ∧
  format_frequency_range "470/ 512" = "470-512" ∧
  format_frequency_range "470-512480-500" = "470-5124" ∧
  format_frequency_range "470-512480-500" ≠ "470-512 480-500".
Proof. repeat split; by vm_compute. Qed.

(** ** The listing scan *)

Section listing.
Implicit Types (rows pre post : list (option string)) (links : list string).

Lemma row_links_cons_Some h rows :
  row_links (Some h :: rows) = full_href h :: row_links rows.
Proof. done. Qed.

Lemma row_links_cons_None rows : row_links (None :: rows) = row_links rows.
Proof. done. Qed.

(** Without a cursor nothing stops the scan. *)
Lemma scan_rows_no_cursor rows links :
  scan_rows rows VNone links = links ++ row_links rows.
Proof.
  revert links. induction rows as [|[h|] rows IH]; intros links; simpl.
  - by rewrite app_nil_r.
  - rewrite IH, row_links_cons_Some. by rewrite <- app_assoc.
  - by rewrite IH, row_links_cons_None.
Qed.

(** The scan collects the links above the first row that carries the
    cursor and nothing from that row on. *)
Lemma scan_rows_stops pre h post links :
  Forall (λ l, l ≠ full_href h) (row_links pre) →
  scan_rows (pre ++ Some h :: post) (VStr (full_href h)) links
  = links ++ row_links pre.
Proof.
  revert links. induction pre as [|[h'|] pre IH]; intros links Hpre; simpl.
  - rewrite bool_decide_true by done. by rewrite app_nil_r.
  - rewrite row_links_cons_Some in Hpre.
    apply Forall_cons in Hpre as [Hne Hpre].
    rewrite bool_decide_false by done.
    rewrite IH by done. by rewrite row_links_cons_Some, <- app_assoc.
  - rewrite row_links_cons_None in Hpre. by rewrite IH.
Qed.

End listing.

(** C2 (as the code has it): with rows carrying, newest first, the links
    L5, L4, L3, L2, L1 and the cursor at L3, where L5 and L4 differ from
    L3, the result is [L4; L5] -- the links newer than the cursor, oldest
    first; and without a cursor the result is all the row links in
    reversed source order. *)
Theorem extract_decision_links_newer_than_cursor
    (h1 h2 h3 h4 h5 : string) (rows : list (option string)) :
  full_href h5 ≠ full_href h3 →
  full_href h4 ≠ full_href h3 →
  extract_decision_links [Some h5; Some h4; Some h3; Some h2; Some h1]
    (VStr (full_href h3)) = [full_href h4; full_href h5]
  ∧ extract_decision_links rows VNone = reverse (row_links rows).
Proof.
  intros H5 H4. unfold extract_decision_links. split.
  - change [Some h5; Some h4; Some h3; Some h2; Some h1]
      with ([Some h5; Some h4] ++ Some h3 :: [Some h2; Some h1]).
    rewrite scan_rows_stops; [done|].
    repeat constructor; done.
  - by rewrite scan_rows_no_cursor.
Qed.

Lemma extract_decision_links_newer_than_cursor_witness :
  full_href "/d/5" ≠ full_href "/d/3" ∧
  full_href "/d/4" ≠ full_href "/d/3" ∧
  (extract_decision_links
     [Some "/d/5"; Some "/d/4"; Some "/d/3"; Some "/d/2"; Some "/d/1"]
     (VStr (full_href "/d/3")) = [full_href "/d/4"; full_href "/d/5"]
   ∧ extract_decision_links [Some "/d/2"; None; Some "http://x/1"] VNone
     = reverse (row_links [Some "/d/2"; None; Some "http://x/1"])).
Proof.
  split; [by vm_compute|]. split; [by vm_compute|].
  apply (extract_decision_links_newer_than_cursor
           "/d/1" "/d/2" "/d/3" "/d/4" "/d/5"); by vm_compute.
Defined.

(** The example of the description, read literally, fails: the two links
    older than the cursor are not what the scan returns. *)
Lemma extract_decision_links_not_the_older_links :
  extract_decision_links
    [Some "/d/5"; Some "/d/4"; Some "/d/3"; Some "/d/2"; Some "/d/1"]
    (VStr (full_href "/d/3"))
  ≠ [full_href "/d/1"; full_href "/d/2"].
Proof. by vm_compute. Qed.

(** ** The cursor file *)

Lemma get_last_visited_absent w :
  get_last_visited {| last_visited_file := None; writable := w |} = Ok VNone.
Proof. done. Qed.

Lemma get_last_visited_not_json w :
  get_last_visited {| last_visited_file := Some NotJson; writable := w |}
  = Ok VNone.
Proof. done. Qed.

Lemma get_last_visited_object w (d : gmap string value) :
  get_last_visited {| last_visited_file := Some (Json (VDict d));
                      writable := w |}
  = Ok (default VNone (d !! "last_visited")).
Proof. done. Qed.

(** The reader returns exactly when the file is absent, is not JSON, or
    holds a JSON object. *)
Lemma get_last_visited_returns fs :
  returns (get_last_visited fs) ↔
  match last_visited_file fs with
  | Some (Json (VDict _)) | Some NotJson | None => True
  | Some (Json _) => False
  end.
Proof.
  destruct fs as [[[|[]]|] w]; unfold returns; simpl;
    (split; [intros [a Ha]; try done; discriminate Ha | intros H]);
    try done; by eexists.
Qed.

(** C7: a cursor file that holds well-formed JSON which is not an object
    (an array, a string, a number, [null], ...) makes [get_last_visited]
    raise: the [AttributeError] of [data.get] is not among the exceptions
    the function catches. *)
Theorem get_last_visited_raises_on_non_object (v : value) (w : bool) :
  (∀ d, v ≠ VDict d) →
  get_last_visited {| last_visited_file := Some (Json v); writable := w |}
  = Raise AttributeError.
Proof.
  intros Hv. destruct v as [| | | | |d]; try reflexivity.
  by destruct (Hv d).
Qed.

Lemma get_last_visited_raises_on_non_object_witness :
  get_last_visited
    {| last_visited_file := Some (Json (VList [])); writable := true |}
  = Raise AttributeError.
Proof.
  apply (get_last_visited_raises_on_non_object (VList []) true).
  intros d. discriminate.
Defined.

(** Saving never raises. *)
Lemma save_last_visited_returns href fs :
  returns (save_last_visited href fs).
Proof.
  unfold save_last_visited, open_w_dump, returns.
  destruct (writable fs); simpl; eauto.
Qed.

(** C9 (as the code has it): when the cursor file can be opened for
    writing, saving a URL and reading the cursor back returns that URL. *)
Theorem cursor_round_trip (href : string) (fs : filesystem) :
  writable fs = true →
  ∃ fs', save_last_visited href fs = Ok fs' ∧
         get_last_visited fs' = Ok (VStr href).
Proof.
  intros Hw. unfold save_last_visited, open_w_dump. rewrite Hw. simpl.
  eexists. split; [done|].
  rewrite get_last_visited_object. by rewrite lookup_singleton_eq.
Qed.

Lemma cursor_round_trip_witness :
  writable {| last_visited_file := Some NotJson; writable := true |} = true ∧
  ∃ fs', save_last_visited "https://ised-isde.canada.ca/d/7"
           {| last_visited_file := Some NotJson; writable := true |} = Ok fs' ∧
         get_last_visited fs' = Ok (VStr "https://ised-isde.canada.ca/d/7").
Proof.
  split; [reflexivity|].
  apply (cursor_round_trip "https://ised-isde.canada.ca/d/7"
           {| last_visited_file := Some NotJson; writable := true |}).
  reflexivity.
Defined.

(** When the file cannot be written the failure is swallowed, and reading
    back does not return the URL that was to be saved. *)
Lemma unwritable_cursor_not_read_back :
  ¬ (∀ (href : string) (fs : filesystem),
       ∃ fs', save_last_visited href fs = Ok fs' ∧
              get_last_visited fs' = Ok (VStr href)).
Proof.
  intros H.
  destruct (H "https://ised-isde.canada.ca/d/7"
              {| last_visited_file := None; writable := false |})
    as (fs' & Hsave & Hget).
  vm_compute in Hsave. injection Hsave as <-. discriminate Hget.
Qed.

(** ** Records of a decision table *)

Section split.

Lemma split_once_shape sep s :
  split_once sep s = [s] ∨ ∃ a b, split_once sep s = [a; b].
Proof.
  induction s as [|c s IH]; simpl; [by left|].
  case_decide; [by eauto|].
  destruct IH as [-> | (a & b & ->)]; eauto.
Qed.

(** [split(' ', 1)] cuts at the first separator ... *)
Lemma split_once_first sep a b :
  contains sep a = false →
  split_once sep (a +:+ String sep b) = [a; b].
Proof.
  induction a as [|c a IH]; simpl; intros Ha.
  - by rewrite decide_True.
  - case_decide; [done|]. by rewrite IH.
Qed.

(** ... and returns the text alone when there is none. *)
Lemma split_once_none sep s :
  contains sep s = false → split_once sep s = [s].
Proof.
  induction s as [|c s IH]; simpl; intros Hs; [done|].
  case_decide; [done|]. by rewrite IH.
Qed.

End split.

Section records.
Implicit Types (data : gmap string string) (field k : string).

Lemma format_field_other data field k :
  k ≠ field → format_field data field !! k = data !! k.
Proof.
  intros Hk. unfold format_field.
  destruct (data !! field); [|done]. by rewrite lookup_insert_ne.
Qed.

Lemma format_fields_other data k :
  k ∉ frequency_fields →
  foldl format_field data frequency_fields !! k = data !! k.
Proof.
  unfold frequency_fields. rewrite !not_elem_of_cons.
  intros (? & ? & ? & _). simpl. by rewrite !format_field_other.
Qed.

Lemma split_field_absent data field :
  data !! field = None → split_field data field = data.
Proof. unfold split_field. by intros ->. Qed.

Lemma split_field_removes data field : split_field data field !! field = None.
Proof.
  unfold split_field. destruct (data !! field) eqn:H; [|done].
  apply lookup_delete_eq.
Qed.

Lemma split_field_other data field k :
  k ≠ field → k ≠ "Tier number" → k ≠ "Geographic area of the licence" →
  split_field data field !! k = data !! k.
Proof.
  intros Hf Ht Hg. unfold split_field.
  destruct (data !! field) eqn:H; [|done].
  rewrite lookup_delete_ne by done.
  destruct (split_once_shape " " s) as [-> | (a & b & ->)]; [done|].
  by rewrite !lookup_insert_ne.
Qed.

(** The effect of one split on the two derived fields. *)
Lemma split_field_space data field a b :
  field ≠ "Tier number" → field ≠ "Geographic area of the licence" →
  data !! field = Some (a +:+ String " " b) →
  contains " " a = false →
  split_field data field !! "Tier number" = Some a ∧
  split_field data field !! "Geographic area of the licence" = Some b.
Proof.
  intros Ht Hg Hv Ha. unfold split_field. rewrite Hv.
  rewrite split_once_first by done.
  rewrite !lookup_delete_ne by done.
  rewrite lookup_insert_ne by done.
  by rewrite !lookup_insert_eq.
Qed.

Lemma split_field_no_space data field v k :
  k ≠ field →
  data !! field = Some v →
  contains " " v = false →
  split_field data field !! k = data !! k.
Proof.
  intros Hk Hv Hs. unfold split_field. rewrite Hv.
  rewrite split_once_none by done. by rewrite lookup_delete_ne.
Qed.

(** All three combined fields are gone after the loop. *)
Lemma split_fields_remove data field :
  field ∈ tier_fields →
  foldl split_field data tier_fields !! field = None.
Proof.
  unfold tier_fields. rewrite !elem_of_cons, elem_of_nil.
  intros [->|[->|[->|[]]]]; simpl;
    rewrite ?split_field_removes; try done;
    repeat (rewrite split_field_other by done);
    by rewrite ?split_field_removes.
Qed.

(** With a single combined field in the record, the loop is the split of
    that field. *)
Lemma split_fields_single data field :
  field ∈ tier_fields →
  (∀ f, f ∈ tier_fields → f ≠ field → data !! f = None) →
  foldl split_field data tier_fields = split_field data field.
Proof.
  intros Hin Hothers.
  assert (∀ f, f ∈ tier_fields → f ≠ field →
               split_field data field !! f = None) as Hafter.
  { intros f Hf Hne. rewrite split_field_other; [by apply Hothers|done|..];
      revert Hf; unfold tier_fields; rewrite !elem_of_cons, elem_of_nil;
      by intros [->|[->|[->|[]]]]. }
  revert Hin Hothers Hafter. unfold tier_fields.
  rewrite !elem_of_cons, elem_of_nil.
  intros [->|[->|[->|[]]]] Hothers Hafter; simpl.
  - by rewrite !(split_field_absent (split_field data _))
      by (apply Hafter; [set_solver|done]).
  - rewrite (split_field_absent data) by (apply Hothers; [set_solver|done]).
    by rewrite (split_field_absent (split_field data _))
      by (apply Hafter; [set_solver|done]).
  - by rewrite !(split_field_absent data)
      by (apply Hothers; [set_solver|done]).
Qed.

Lemma process_row_built headers title row data :
  build_record headers (td row) = Ok data →
  process_row headers title row
  = Ok (<["Table Title" := title]>
          (foldl split_field (foldl format_field data frequency_fields)
             tier_fields)).
Proof. unfold process_row. by intros ->. Qed.

(** The records of a page are the rows of its table after the header,
    each put through [process_row]. *)
Lemma for_each_process_rows headers title rest acc records :
  for_each
    (λ data_list row,
       data ← process_row headers title row; Ok (data_list ++ [data]))
    rest acc = Ok records →
  ∃ new, records = acc ++ new ∧
         Forall2 (λ row r, process_row headers title row = Ok r) rest new.
Proof.
  revert acc. induction rest as [|row rest IH]; intros acc; simpl.
  - intros [= <-]. exists []. by rewrite app_nil_r.
  - destruct (process_row headers title row) as [r|e] eqn:Hrow; [|done].
    simpl. intros (new & -> & Hnew)%IH.
    exists (r :: new). rewrite <- app_assoc. split; [done|].
    by constructor.
Qed.

Lemma extract_data_rows doc t first rest records :
  bordered_table doc = Some t →
  trs t = first :: rest →
  extract_data (Some doc) = Ok records →
  Forall2
    (λ row r,
       process_row (replace_nbsp <$> th first)
         (default "Unknown Table Title" (caption t)) row = Ok r)
    rest records.
Proof.
  intros Ht Hrows. unfold extract_data. rewrite Ht.
  destruct t as [cap rs]. simpl in *. subst rs.
  intros (new & -> & Hnew)%for_each_process_rows. done.
Qed.

(** A loop over fields leaves every other key alone, the two derived
    fields apart. *)
Lemma foldl_split_field_other fields data k :
  k ∉ fields →
  k ≠ "Tier number" → k ≠ "Geographic area of the licence" →
  foldl split_field data fields !! k = data !! k.
Proof.
  revert data. induction fields as [|f fields IH]; intros data; [done|].
  intros [Hf Hk]%not_elem_of_cons Ht Hg. simpl.
  rewrite IH by done. by apply split_field_other.
Qed.

(** Fields whose values have no space leave the derived fields as they
    are. *)
Lemma foldl_split_field_keep fields data k :
  (∀ f v, f ∈ fields → data !! f = Some v → contains " " v = false) →
  k ∉ fields →
  foldl split_field data fields !! k = data !! k.
Proof.
  revert data. induction fields as [|f fields IH]; intros data; [done|].
  intros Hno [Hf Hk]%not_elem_of_cons. simpl.
  assert (∀ k', k' ≠ f → split_field data f !! k' = data !! k') as Hstep.
  { intros k' Hk'. destruct (data !! f) as [v|] eqn:Hv.
    - apply (split_field_no_space _ _ v); [done..|].
      by apply (Hno f); [left|].
    - by rewrite split_field_absent. }
  rewrite IH; [by apply Hstep| |done].
  intros f' v' Hf' Hv'. destruct (decide (f' = f)) as [->|Hne].
  - by rewrite split_field_removes in Hv'.
  - rewrite Hstep in Hv' by done. apply (Hno f'); [by right|done].
Qed.

(** The derived fields come from the last field that has a space in its
    value. *)
Lemma foldl_split_field_last before field after data a b :
  NoDup (before ++ field :: after) →
  (∀ f, f ∈ before ++ field :: after →
        f ≠ "Tier number" ∧ f ≠ "Geographic area of the licence") →
  data !! field = Some (a +:+ String " " b) →
  contains " " a = false →
  (∀ f v, f ∈ after → data !! f = Some v → contains " " v = false) →
  foldl split_field data (before ++ field :: after) !! "Tier number"
  = Some a ∧
  foldl split_field data (before ++ field :: after)
    !! "Geographic area of the licence" = Some b.
Proof.
  intros (Hbefore & Hsep & [Hfield Hafter]%NoDup_cons)%NoDup_app
    Hnames Hv Ha Hno.
  assert (field ∉ before) as Hfb.
  { intros Hin. apply (Hsep _ Hin). left. }
  destruct (Hnames field) as [Hft Hfg]; [apply elem_of_app; right; left|].
  rewrite foldl_app. simpl.
  set (d1 := foldl split_field data before).
  assert (∀ f, f ∉ before → f ≠ "Tier number" →
               f ≠ "Geographic area of the licence" →
               d1 !! f = data !! f) as Hd1.
  { intros f ???. by apply foldl_split_field_other. }
  destruct (split_field_space d1 field a b) as [Htn Hga]; [done..| |done|].
  { by rewrite Hd1. }
  assert (∀ f v, f ∈ after → split_field d1 field !! f = Some v →
                 contains " " v = false) as Hno'.
  { intros f v Hf Hfv.
    destruct (Hnames f) as [? ?]; [apply elem_of_app; right; by right|].
    rewrite split_field_other in Hfv; [|by intros ->|done..].
    rewrite Hd1 in Hfv; [by eapply Hno|..|done|done].
    intros Hin. apply (Hsep _ Hin). by right. }
  assert (∀ k, k = "Tier number" ∨ k = "Geographic area of the licence" →
               k ∉ after) as Hout.
  { intros k Hk Hin.
    destruct (Hnames k) as [? ?]; [apply elem_of_app; right; by right|].
    by destruct Hk. }
  rewrite !foldl_split_field_keep by auto. done.
Qed.

(** Every record of a page comes from a row of its table. *)
Lemma record_has_row doc records i r :
  extract_data (Some doc) = Ok records →
  records !! i = Some r →
  ∃ cells, row_record doc i cells r.
Proof.
  intros Hdata Hr. unfold row_record.
  destruct (bordered_table doc) as [[cap [|first rest]]|] eqn:Ht.
  1, 3: unfold extract_data in Hdata; rewrite Ht in Hdata;
    injection Hdata as <-; by rewrite lookup_nil in Hr.
  pose proof (extract_data_rows _ _ _ _ _ Ht eq_refl Hdata) as Hall.
  destruct (Forall2_lookup_r _ _ _ _ _ Hall Hr) as (row & Hrow & Hproc).
  cbv beta in Hproc. unfold process_row in Hproc.
  apply bind_Ok in Hproc as (cells & Hcells & _).
  exists cells, {| caption := cap; trs := first :: rest |}, first, rest,
    records, row.
  repeat split; done.
Qed.

End records.

(** C6 (as the code has it): every record of [extract_data] comes from
    a row of the table, and none of the three combined tier/area fields
    is left in it.  [Tier number] and [Geographic area of the licence]
    are taken from the last of the combined fields, in the order of the
    loop, whose value in the row has a space: the text before its first
    space and everything after it.  When no combined field of the row
    has a value with a space, nothing is derived: the two fields are as
    the row had them. *)
Theorem tier_field_split (doc : page) (records : list (gmap string string))
    (i : nat) (r : gmap string string) :
  extract_data (Some doc) = Ok records →
  records !! i = Some r →
  ∃ cells,
    row_record doc i cells r ∧
    (∀ f, f ∈ tier_fields → r !! f = None) ∧
    (∀ before field after a b,
       tier_fields = before ++ field :: after →
       cells !! field = Some (a +:+ String " " b) →
       contains " " a = false →
       (∀ f v, f ∈ after → cells !! f = Some v → contains " " v = false) →
       r !! "Tier number" = Some a ∧
       r !! "Geographic area of the licence" = Some b) ∧
    ((∀ f v, f ∈ tier_fields → cells !! f = Some v →
             contains " " v = false) →
     r !! "Tier number" = cells !! "Tier number" ∧
     r !! "Geographic area of the licence"
     = cells !! "Geographic area of the licence").
Proof.
  intros Hdata Hr.
  destruct (record_has_row doc records i r Hdata Hr) as [cells Hrec].
  exists cells. split; [done|].
  destruct Hrec as (t & first & rest & records' & row & Ht & Hrows & Hdata'
                    & Hrow & Hr' & Hbuild).
  pose proof (extract_data_rows _ _ _ _ _ Ht Hrows Hdata') as Hall.
  pose proof (Forall2_lookup_lr _ _ _ _ _ _ Hall Hrow Hr') as Hproc.
  cbv beta in Hproc. rewrite (process_row_built _ _ _ _ Hbuild) in Hproc.
  set (formatted := foldl format_field cells frequency_fields) in Hproc.
  assert (r = <["Table Title" := default "Unknown Table Title" (caption t)]>
                (foldl split_field formatted tier_fields)) as ->
    by congruence.
  clear Hproc Hr Hr'.
  assert (∀ f, f ∈ tier_fields → f ∉ frequency_fields) as Hdisj.
  { intros f. unfold tier_fields, frequency_fields.
    rewrite !elem_of_cons, !elem_of_nil.
    by intros [->|[->|[->|[]]]] [?|[?|[?|[]]]]. }
  assert (∀ f, f ∈ tier_fields →
            f ≠ "Tier number" ∧ f ≠ "Geographic area of the licence" ∧
            f ≠ "Table Title") as Hnames.
  { intros f. unfold tier_fields. rewrite !elem_of_cons, !elem_of_nil.
    by intros [->|[->|[->|[]]]]. }
  assert (∀ f, f ∈ tier_fields → formatted !! f = cells !! f) as Hfmt.
  { intros f Hf. apply format_fields_other. by apply Hdisj. }
  assert (("Tier number" ∉ frequency_fields) ∧
          ("Geographic area of the licence" ∉ frequency_fields)) as [Htn Hga].
  { unfold frequency_fields. rewrite !not_elem_of_cons.
    repeat split; try done; apply not_elem_of_nil. }
  assert (("Tier number" ∉ tier_fields) ∧
          ("Geographic area of the licence" ∉ tier_fields)) as [Htn' Hga'].
  { unfold tier_fields. rewrite !not_elem_of_cons.
    repeat split; try done; apply not_elem_of_nil. }
  assert (NoDup tier_fields) as Hnd.
  { unfold tier_fields. repeat (apply NoDup_cons; split);
      rewrite ?not_elem_of_cons; repeat split; try done;
      try apply not_elem_of_nil. apply NoDup_nil_2. }
  split; [|split].
  - intros f Hf. destruct (Hnames f Hf) as (_ & _ & ?).
    rewrite lookup_insert_ne by done. by apply split_fields_remove.
  - intros before field after a b Hsplit Hv Ha Hno.
    rewrite !lookup_insert_ne by done.
    assert (∀ f, f ∈ before ++ field :: after → f ∈ tier_fields) as Hsub
      by (intros f; by rewrite Hsplit).
    rewrite Hsplit. apply foldl_split_field_last; [by rewrite <- Hsplit| | |done|].
    + intros f Hf. by destruct (Hnames f (Hsub f Hf)) as (? & ? & _).
    + rewrite Hfmt; [done|]. apply Hsub, elem_of_app. right. left.
    + intros f v Hf. rewrite Hfmt; [by apply Hno|].
      apply Hsub, elem_of_app. right. by right.
  - intros Hno. rewrite !lookup_insert_ne by done.
    rewrite !foldl_split_field_keep; try done.
    + split; by apply format_fields_other.
    + intros f v Hf. rewrite Hfmt by done. by apply Hno.
    + intros f v Hf. rewrite Hfmt by done. by apply Hno.
Qed.

Lemma tier_field_split_witness :
  default ∅ (records_of (Some two_fields_page) !! 0) !! "Tier number"
  = Some "2-076" ∧
  default ∅ (records_of (Some two_fields_page) !! 0)
    !! "Geographic area of the licence" = Some "Toronto".
Proof.
  destruct (tier_field_split two_fields_page
              (records_of (Some two_fields_page)) 0
              (default ∅ (records_of (Some two_fields_page) !! 0)))
    as (cells & Hrec & _ & Hlast & _).
  - vm_compute. reflexivity.
  - vm_compute. reflexivity.
  - destruct Hrec as (t & first & rest & records' & row & Ht & Hrows & _
                      & Hrow & _ & Hbuild).
    injection Ht as <-. injection Hrows as <- <-. injection Hrow as <-.
    assert (build_record
              (replace_nbsp
                 <$> [ "Tier number and geographic area of the primary licence";
                       "Tier number and geographic area of the subordinate licence" ])
              ["2-076 Toronto"; "4-077 Oshawa"]
            = Ok (<["Tier number and geographic area of the subordinate licence"
                      := "4-077 Oshawa"]>
                    {[ "Tier number and geographic area of the primary licence"
                       := "2-076 Toronto" ]})) as Hcells
      by (vm_compute; reflexivity).
    simpl th in Hbuild. simpl td in Hbuild.
    rewrite Hcells in Hbuild. injection Hbuild as <-.
    apply (Hlast
             [ "Tier number and geographic area of the licence";
               "Tier number and geographic area of the subordinate licence" ]
             "Tier number and geographic area of the primary licence" []
             "2-076" "Toronto").
    + reflexivity.
    + vm_compute. reflexivity.
    + reflexivity.
    + intros f v Hf. by apply elem_of_nil in Hf.
Defined.

(** A combined field whose value has no space is removed without any
    [Tier number] or [Geographic area of the licence] being derived. *)
Lemma tier_field_without_space_not_split :
  ∃ r, extract_data (Some (licence_page "Tier3")) = Ok [r] ∧
       r !! "Tier number and geographic area of the licence" = None ∧
       r !! "Tier number" = None ∧
       r !! "Geographic area of the licence" = None.
Proof.
  eexists. split; [vm_compute; reflexivity|].
  repeat split; by vm_compute.
Qed.

(** ** The tier loader *)

Section loader.
Context {G : Type} (intersects : G → G → bool).
Implicit Types (archive : nat → option (GeoDataFrame G))
  (acc layers before : list (GeoDataFrame G)) (gdf f : GeoDataFrame G).

Lemma load_tier_missing archive acc k :
  archive k = None → load_tier intersects archive acc k = Ok acc.
Proof. unfold load_tier. by intros ->. Qed.

Lemma load_tier_present archive acc k f acc' :
  archive k = Some f →
  load_tier intersects archive acc k = Ok acc' →
  ∃ layer, acc' = acc ++ [layer].
Proof.
  unfold load_tier. intros ->.
  intros (layer & _ & [= <-])%bind_Ok. eauto.
Qed.

(** What the loader appends for a tier above the first: the left join
    of the tier's own layer with the last layer loaded so far. *)
Lemma load_tier_joined archive acc k f layer :
  1 < k →
  archive k = Some f →
  load_tier intersects archive acc k = Ok (acc ++ [layer]) →
  ∃ parent right,
    last acc = Some parent ∧
    select2 parent Service_Area "geometry" = Ok right ∧
    layer = rename (sjoin_left intersects f right)
              (Service_Area +:+ "_left") Service_Area
              (Service_Area +:+ "_right")
              ("Tier" +:+ pretty (k - 1) +:+ "_" +:+ Service_Area).
Proof.
  intros Hk Hf. unfold load_tier. rewrite Hf.
  rewrite decide_True by done.
  intros (layer' & Hjoin & [= Heq])%bind_Ok.
  apply app_inj_tail in Heq as [_ <-].
  apply bind_Ok in Hjoin as (parent & Hlast & Hjoin).
  apply bind_Ok in Hjoin as (right & Hsel & [= <-]).
  exists parent, right. split; [|done].
  unfold last_item in Hlast. by destruct (last acc); simplify_eq.
Qed.

Lemma load_tier_first archive acc f layer :
  archive 1 = Some f →
  load_tier intersects archive acc 1 = Ok (acc ++ [layer]) →
  layer = f.
Proof.
  unfold load_tier. intros ->. simpl.
  intros [= Heq]. by apply app_inj_tail in Heq as [_ <-].
Qed.

Lemma for_each_load_grows archive tiers acc layers :
  for_each (load_tier intersects archive) tiers acc = Ok layers →
  ∃ new, layers = acc ++ new.
Proof.
  revert acc. induction tiers as [|k tiers IH]; intros acc; simpl.
  - intros [= <-]. exists []. by rewrite app_nil_r.
  - intros (acc' & Hk & Hrest)%bind_Ok.
    apply IH in Hrest as (new & ->).
    destruct (archive k) as [f|] eqn:Hf.
    + destruct (load_tier_present _ _ _ _ _ Hf Hk) as (layer & ->).
      exists (layer :: new). by rewrite <- app_assoc.
    + rewrite load_tier_missing in Hk by done. injection Hk as <-. eauto.
Qed.

(** The layer of a present tier sits at its position, and is what
    [load_tier] made of the layers before it. *)
Lemma for_each_load_at archive a m acc layers k f :
  for_each (load_tier intersects archive) (seq a m) acc = Ok layers →
  a ≤ k < a + m →
  archive k = Some f →
  ∃ before layer after,
    layers = before ++ layer :: after ∧
    load_tier intersects archive before k = Ok (before ++ [layer]) ∧
    length before
    = length acc + length (filter (λ j, is_Some (archive j)) (seq a (k - a))).
Proof.
  revert a acc. induction m as [|m IH]; intros a acc Hrun Hk Hf; [lia|].
  simpl in Hrun. apply bind_Ok in Hrun as (acc' & Ha & Hrest).
  destruct (decide (k = a)) as [->|Hne].
  - destruct (load_tier_present _ _ _ _ _ Hf Ha) as (layer & ->).
    destruct (for_each_load_grows _ _ _ _ Hrest) as (new & ->).
    exists acc, layer, new. rewrite <- app_assoc. split; [done|].
    split; [done|]. rewrite Nat.sub_diag. simpl. lia.
  - destruct (IH (S a) acc' Hrest) as (before & layer & after & -> & Hl & Hlen);
      [lia|done|].
    exists before, layer, after. split; [done|]. split; [done|].
    rewrite Hlen. replace (k - a) with (S (k - S a)) by lia.
    simpl. rewrite filter_cons.
    destruct (archive a) as [fa|] eqn:Hfa.
    + destruct (load_tier_present _ _ _ _ _ Hfa Ha) as (la & ->).
      rewrite decide_True by eauto. rewrite length_app. simpl. lia.
    + rewrite load_tier_missing in Ha by done. injection Ha as <-.
      rewrite decide_False; [done|]. by intros [? [=]].
Qed.

Lemma load_and_join_tiers_at archive n layers k f :
  load_and_join_tiers intersects archive n = Ok layers →
  1 ≤ k ≤ n →
  archive k = Some f →
  ∃ layer,
    layers !! position archive k = Some layer ∧
    load_tier intersects archive (take (position archive k) layers) k
    = Ok (take (position archive k) layers ++ [layer]).
Proof.
  intros Hrun Hk Hf.
  destruct (for_each_load_at archive 1 n [] layers k f Hrun) as
    (before & layer & after & -> & Hl & Hlen); [lia|done|].
  simpl in Hlen. fold (position archive k) in Hlen. rewrite <- Hlen.
  exists layer. rewrite list_lookup_middle by done.
  by rewrite take_app_length.
Qed.

Lemma position_le archive k : 1 ≤ k → S (position archive k) ≤ k.
Proof.
  intros Hk. unfold position.
  pose proof (length_filter (λ j, is_Some (archive j)) (seq 1 (k - 1))) as H.
  rewrite length_seq in H. lia.
Qed.

Lemma position_lt archive k j :
  1 ≤ j < k → archive j = None → S (position archive k) < k.
Proof.
  intros Hj Hnone. unfold position.
  pose proof (length_filter_lt (λ j, is_Some (archive j))
                (seq 1 (k - 1)) j) as H.
  rewrite length_seq in H.
  assert (length (filter (λ j, is_Some (archive j)) (seq 1 (k - 1))) < k - 1);
    [|lia].
  apply H.
  - apply elem_of_seq. lia.
  - rewrite Hnone. by intros [? [=]].
Qed.

End loader.

(** ** Frames and the spatial join *)

Lemma filter_none {A} (P : A → Prop) `{!∀ x, Decision (P x)} (l : list A) :
  (∀ x, x ∈ l → ¬ P x) → filter P l = [].
Proof.
  induction l as [|x l IH]; intros Hl; [done|].
  rewrite filter_cons_False by (apply Hl; left).
  apply IH. intros y Hy. apply Hl. by right.
Qed.

Lemma column_index_is_Some name cols :
  name ∈ cols ↔ is_Some (column_index name cols).
Proof.
  unfold column_index. rewrite fmap_is_Some. split.
  - intros Hin. by apply (list_find_elem_of _ cols name).
  - intros [[i c] (Hi & -> & _)%list_find_Some].
    by apply list_elem_of_lookup_2 in Hi.
Qed.


Section join.
Context {G : Type} (intersects : G → G → bool).
Implicit Types (left right parent gdf : GeoDataFrame G)
  (lrow prow : list (cell G)).

Lemma select2_columns gdf c1 c2 sel :
  select2 gdf c1 c2 = Ok sel → c1 ∈ columns gdf ∧ c2 ∈ columns gdf.
Proof.
  unfold select2. rewrite !column_index_is_Some.
  destruct (column_index c1 (columns gdf)); [|done].
  destruct (column_index c2 (columns gdf)); [|done]. eauto.
Qed.

Lemma select2_returns gdf c1 c2 :
  c1 ∈ columns gdf → c2 ∈ columns gdf → returns (select2 gdf c1 c2).
Proof.
  unfold select2, returns. rewrite !column_index_is_Some.
  intros [i1 ->] [i2 ->]. eauto.
Qed.

(** The selection handed to the join has, row by row, the geometry of
    the layer it is taken from. *)
Lemma select2_geometry parent sel i srow :
  select2 parent Service_Area "geometry" = Ok sel →
  rows sel !! i = Some srow →
  ∃ prow, rows parent !! i = Some prow ∧
          row_geometry (columns sel) srow
          = row_geometry (columns parent) prow.
Proof.
  unfold select2.
  destruct (column_index Service_Area (columns parent)) as [i1|]; [|done].
  destruct (column_index "geometry" (columns parent)) as [i2|] eqn:Hg;
    [|done].
  intros [= <-]. simpl. rewrite list_lookup_fmap.
  intros (prow & Hprow & ->)%fmap_Some. exists prow. split; [done|].
  unfold row_geometry, row_get. rewrite Hg. simpl.
  by destruct (prow !! i2).
Qed.

(** A feature that intersects no feature of the parent layer has no
    partner in the join. *)
Lemma partners_none left parent sel lrow :
  select2 parent Service_Area "geometry" = Ok sel →
  (∀ prow, prow ∈ rows parent →
     intersecting intersects (row_geometry (columns left) lrow)
       (row_geometry (columns parent) prow) = false) →
  partners intersects left sel lrow = [].
Proof.
  intros Hsel Hno. unfold partners. apply filter_none.
  intros [i srow] (i' & srow' & [= <- <-] & Hi)%elem_of_lookup_imap. simpl.
  destruct (select2_geometry _ _ _ _ Hsel Hi) as (prow & Hprow & ->).
  rewrite Hno; [done|]. by apply list_elem_of_lookup_2 in Hprow.
Qed.

(** Left join: no row of the left frame is dropped ... *)
Lemma sjoin_left_keeps left right lrow :
  lrow ∈ rows left →
  ∃ ext, length ext = 2 ∧ lrow ++ ext ∈ rows (sjoin_left intersects left right).
Proof.
  intros Hin. unfold sjoin_left. simpl.
  setoid_rewrite list_elem_of_bind.
  destruct (partners intersects left right lrow) as [|p ps] eqn:Hp.
  - exists [NaN; NaN]. split; [done|]. exists lrow. rewrite Hp.
    split; [left|done].
  - eexists [_; _]. split; [done|]. exists lrow. rewrite Hp.
    split; [left|done].
Qed.

(** ... and a row without partner is kept once, with missing values in
    the two columns that the join adds. *)
Lemma sjoin_left_unmatched left right lrow :
  lrow ∈ rows left →
  partners intersects left right lrow = [] →
  lrow ++ [NaN; NaN] ∈ rows (sjoin_left intersects left right).
Proof.
  intros Hin Hp. unfold sjoin_left. simpl.
  apply list_elem_of_bind. exists lrow. rewrite Hp. split; [left|done].
Qed.

(** The joined and renamed layer of a tier: its last column is the area
    of the parent. *)
Lemma joined_columns left right (tier : nat) :
  let joined :=
    rename (sjoin_left intersects left right)
      (Service_Area +:+ "_left") Service_Area
      (Service_Area +:+ "_right")
      ("Tier" +:+ pretty tier +:+ "_" +:+ Service_Area) in
  length (columns joined) = length (columns left) + 2 ∧
  (Service_Area ∈ columns left →
   last (columns joined)
   = Some ("Tier" +:+ pretty tier +:+ "_" +:+ Service_Area)) ∧
  Service_Area ∈ columns joined ∧
  ("geometry" ∈ columns left → "geometry" ∈ columns joined).
Proof.
  simpl. unfold rename, sjoin_left. simpl.
  rewrite fmap_app, !length_app, !length_fmap. simpl.
  split; [lia|]. split; [|split].
  - intros Hin. rewrite bool_decide_true by done.
    by rewrite last_app.
  - destruct (decide (Service_Area ∈ columns left)) as [Hin|Hnin].
    + apply elem_of_app. left.
      apply list_elem_of_fmap. exists (Service_Area +:+ "_left").
      split; [by rewrite decide_True|].
      apply list_elem_of_fmap. exists Service_Area.
      split; [by rewrite decide_True|done].
    + apply elem_of_app. right. rewrite bool_decide_false by done.
      simpl. right. left.
  - intros Hin. apply elem_of_app. left.
    apply list_elem_of_fmap. exists "geometry". split; [done|].
    apply list_elem_of_fmap. exists "geometry". split; [done|done].
Qed.

End join.

(** ** Loading the tiers *)

Section tiers.
Context {G : Type} (intersects : G → G → bool).
Implicit Types (archive : nat → option (GeoDataFrame G))
  (acc layers : list (GeoDataFrame G)) (f : GeoDataFrame G).

Lemma for_each_load_all_missing archive tiers acc :
  (∀ j, j ∈ tiers → archive j = None) →
  for_each (load_tier intersects archive) tiers acc = Ok acc.
Proof.
  induction tiers as [|j tiers IH]; intros Hnone; simpl; [done|].
  rewrite load_tier_missing by (apply Hnone; left). simpl.
  apply IH. intros j' Hj'. apply Hnone. by right.
Qed.

(** The loader returns when the first tier has a file whose layer has
    the area column, and every layer has its geometry column. *)
Lemma load_and_join_tiers_returns archive n f1 :
  archive 1 = Some f1 →
  Service_Area ∈ columns f1 →
  (∀ k f, archive k = Some f → "geometry" ∈ columns f) →
  returns (load_and_join_tiers intersects archive n).
Proof.
  intros H1 Hsa Hgeo. unfold load_and_join_tiers.
  destruct n as [|n]; [by exists []|]. simpl.
  assert (load_tier intersects archive [] 1 = Ok [f1]) as ->.
  { unfold load_tier. by rewrite H1. }
  simpl.
  assert (∀ tiers acc parent,
            (∀ k, k ∈ tiers → 1 < k) →
            last acc = Some parent →
            Service_Area ∈ columns parent →
            "geometry" ∈ columns parent →
            returns (for_each (load_tier intersects archive) tiers acc))
    as Hloop.
  { induction tiers as [|k tiers IH]; intros acc parent Hgt Hlast Hs Hg;
      simpl.
    { by exists acc. }
    assert (∀ k', k' ∈ tiers → 1 < k') as Hgt'
      by (intros; apply Hgt; by right).
    unfold load_tier at 1. destruct (archive k) as [f|] eqn:Hf; simpl.
    2: { by apply (IH acc parent). }
    rewrite decide_True by (apply Hgt; left). simpl.
    unfold last_item. rewrite Hlast. simpl.
    destruct (select2_returns parent Service_Area "geometry" Hs Hg)
      as [right ->]. simpl.
    pose proof (joined_columns intersects f right (k - 1)) as Hcols.
    cbv zeta in Hcols. destruct Hcols as (_ & _ & Hs' & Hg').
    apply (IH _ _ Hgt' (last_snoc _ _) Hs').
    apply Hg'. by eapply Hgeo. }
  apply (Hloop _ [f1] f1); [|done|done|by eapply Hgeo].
  intros k Hk%elem_of_seq. lia.
Qed.



(** C3: when the first tier that has a file is not tier 1, the loader
    does not skip on and return the present tiers: it raises
    [IndexError], because the join of that tier asks for the last of
    the layers loaded so far and there is none. *)
Theorem load_and_join_tiers_first_tier_missing archive n k f :
  1 < k ≤ n →
  (∀ j, 1 ≤ j < k → archive j = None) →
  archive k = Some f →
  load_and_join_tiers intersects archive n = Raise IndexError.
Proof.
  intros Hk Hnone Hf. unfold load_and_join_tiers.
  replace n with ((k - 1) + S (n - k)) by lia.
  rewrite seq_app, for_each_app.
  rewrite for_each_load_all_missing
    by (intros j Hj%elem_of_seq; apply Hnone; lia).
  replace (1 + (k - 1)) with k by lia. simpl.
  unfold load_tier at 1. rewrite Hf. by rewrite decide_True by lia.
Qed.

(** C5: in what the loader returns, the layer of every tier [k > 1]
    that has a file is the left join of the tier's own layer with the
    layer loaded just before it.  It has two columns more than the
    tier's layer, the last one being the area of the parent.  Every
    feature of the tier's layer appears in it, extended by two values;
    a feature that intersects no feature of the parent appears with
    both of them missing. *)
Theorem tier_join_keeps_every_feature archive n layers k f :
  load_and_join_tiers intersects archive n = Ok layers →
  1 < k ≤ n →
  archive k = Some f →
  ∃ parent joined,
    last (take (position archive k) layers) = Some parent ∧
    layers !! position archive k = Some joined ∧
    length (columns joined) = length (columns f) + 2 ∧
    (Service_Area ∈ columns f →
     last (columns joined)
     = Some ("Tier" +:+ pretty (k - 1) +:+ "_" +:+ Service_Area)) ∧
    (∀ lrow, lrow ∈ rows f →
       ∃ ext, length ext = 2 ∧ lrow ++ ext ∈ rows joined) ∧
    (∀ lrow, lrow ∈ rows f →
       (∀ prow, prow ∈ rows parent →
          intersecting intersects (row_geometry (columns f) lrow)
            (row_geometry (columns parent) prow) = false) →
       lrow ++ [NaN; NaN] ∈ rows joined).
Proof.
  intros Hrun Hk Hf.
  destruct (load_and_join_tiers_at intersects archive n layers k f Hrun)
    as (joined & Hat & Hstep); [lia|done|].
  destruct (load_tier_joined intersects _ _ _ _ _ (proj1 Hk) Hf Hstep)
    as (parent & right & Hlast & Hsel & ->).
  exists parent. eexists. split; [done|]. split; [done|].
  pose proof (joined_columns intersects f right (k - 1)) as Hcols.
  cbv zeta in Hcols. destruct Hcols as (Hlen & Hparent & _ & _).
  split; [done|]. split; [done|]. split.
  - intros lrow Hin. by apply sjoin_left_keeps.
  - intros lrow Hin Hno. apply sjoin_left_unmatched; [done|].
    by eapply partners_none.
Qed.

End tiers.

Lemma load_and_join_tiers_first_tier_missing_witness :
  load_and_join_tiers overlap archive_2 5 = Raise IndexError.
Proof.
  apply (load_and_join_tiers_first_tier_missing overlap archive_2 5 2 districts).
  - lia.
  - intros j Hj. assert (j = 1) as -> by lia. reflexivity.
  - reflexivity.
Defined.

Lemma tier_join_keeps_every_feature_witness :
  ∃ layers,
    load_and_join_tiers overlap archive_1_3 5 = Ok layers ∧
    ∃ parent joined,
      last (take (position archive_1_3 3) layers) = Some parent ∧
      layers !! position archive_1_3 3 = Some joined ∧
      length (columns joined) = length (columns districts) + 2 ∧
      (Service_Area ∈ columns districts →
       last (columns joined)
       = Some ("Tier" +:+ pretty (3 - 1) +:+ "_" +:+ Service_Area)) ∧
      (∀ lrow, lrow ∈ rows districts →
         ∃ ext, length ext = 2 ∧ lrow ++ ext ∈ rows joined) ∧
      (∀ lrow, lrow ∈ rows districts →
         (∀ prow, prow ∈ rows parent →
            intersecting overlap (row_geometry (columns districts) lrow)
              (row_geometry (columns parent) prow) = false) →
         lrow ++ [NaN; NaN] ∈ rows joined).
Proof.
  eexists. split; [vm_compute; reflexivity|].
  apply (tier_join_keeps_every_feature overlap archive_1_3 5 _ 3 districts).
  - vm_compute. reflexivity.
  - lia.
  - reflexivity.
Defined.

(** ** Loading into the store *)

Lemma list_ascii_of_string_app (s1 s2 : string) :
  list_ascii_of_string (s1 +:+ s2)
  = list_ascii_of_string s1 ++ list_ascii_of_string s2.
Proof. induction s1 as [|c s1 IH]; simpl; [done|]. by rewrite <- IH. Qed.

Lemma string_app_inj_r (s1 s2 t : string) : s1 +:+ t = s2 +:+ t → s1 = s2.
Proof.
  intros H%(f_equal list_ascii_of_string).
  rewrite !list_ascii_of_string_app in H. apply app_inv_tail in H.
  rewrite <- (string_of_list_ascii_of_string s1).
  rewrite <- (string_of_list_ascii_of_string s2). by rewrite H.
Qed.

Lemma table_name_of_inj (a b : nat) :
  table_name_of a = table_name_of b → a = b.
Proof.
  unfold table_name_of. intros H%String.app_inj%string_app_inj_r.
  by apply pretty_nat_inj in H.
Qed.

Section store.
Context {G : Type} (wkt : G → string) (str_label : nat → string).
Implicit Types (conn : gmap string table) (gdf : GeoDataFrame G)
  (items : list (nat * GeoDataFrame G)) (tier : nat).

Local Abbreviation populate := (populate wkt str_label).
Local Abbreviation rows_to_insert := (rows_to_insert wkt str_label).

(** One step of the loop: the table named after [tier] keeps its schema
    and rows when it exists and is made with the layer's schema when it
    does not; the layer's rows are appended. *)
Lemma populate_Ok conn tier gdf conn' :
  populate conn (tier, gdf) = Ok conn' →
  ∃ new sch,
    rows_to_insert gdf = Ok new ∧
    conn' = <[table_name_of tier :=
                {| schema := sch;
                   body := stored_rows conn (table_name_of tier) ++ new |}]>
              conn ∧
    length sch = length (columns gdf) ∧
    match conn !! table_name_of tier with
    | Some t => sch = schema t
    | None =>
        sch = filter (λ col, col ≠ "geometry") (columns gdf) ++ ["Geometry"]
    end.
Proof.
  unfold populate, Database.populate, table_exists, stored_rows.
  intros (new & Hnew & Hins)%bind_Ok. exists new.
  unfold executemany_insert in Hins.
  destruct (conn !! table_name_of tier) as [t|] eqn:Ht.
  - rewrite bool_decide_true in Hins by eauto. rewrite Ht in Hins.
    case_decide as Hw; [|done]. injection Hins as <-.
    by exists (schema t).
  - rewrite bool_decide_false in Hins by (by intros [? [=]]).
    rewrite lookup_insert_eq in Hins. simpl in Hins.
    case_decide as Hw; [|done]. injection Hins as <-.
    eexists. by rewrite insert_insert_eq.
Qed.

(** A table that is there with the width of the layer takes the rows. *)
Lemma populate_existing conn tier gdf t new :
  conn !! table_name_of tier = Some t →
  length (schema t) = length (columns gdf) →
  rows_to_insert gdf = Ok new →
  populate conn (tier, gdf)
  = Ok (<[table_name_of tier :=
            {| schema := schema t; body := body t ++ new |}]> conn).
Proof.
  intros Ht Hw Hnew.
  unfold populate, Database.populate, table_exists, executemany_insert.
  rewrite Hnew. simpl. rewrite bool_decide_true by eauto.
  rewrite Ht. by rewrite decide_True.
Qed.

(** A whole run, for layers that go to distinct tables. *)
Lemma run_Ok items conn conn' :
  NoDup items.*1 →
  for_each populate items conn = Ok conn' →
  (∀ tier gdf, (tier, gdf) ∈ items →
     ∃ new t',
       rows_to_insert gdf = Ok new ∧
       conn' !! table_name_of tier = Some t' ∧
       body t' = stored_rows conn (table_name_of tier) ++ new ∧
       length (schema t') = length (columns gdf) ∧
       (∀ t, conn !! table_name_of tier = Some t → schema t' = schema t)) ∧
  (∀ name, (∀ tier, tier ∈ items.*1 → name ≠ table_name_of tier) →
     conn' !! name = conn !! name).
Proof.
  revert conn. induction items as [|[tier gdf] items IH]; intros conn Hnd.
  { simpl. intros [= <-]. split; [|done]. by intros ?? ?%elem_of_nil. }
  rewrite fmap_cons in Hnd. apply NoDup_cons in Hnd as [Hfresh Hnd].
  rewrite for_each_cons. intros (conn1 & Hstep & Hrest)%bind_Ok.
  destruct (IH conn1 Hnd Hrest) as [Hitems Hother].
  apply populate_Ok in Hstep as (new & sch & Hnew & -> & Hlen & Hsch).
  split.
  - intros tier' gdf' [[= -> ->]|Hin]%elem_of_cons.
    + exists new. eexists. split; [done|].
      rewrite Hother.
      2: { intros tier' Hin' Heq%table_name_of_inj. by subst. }
      rewrite lookup_insert_eq. split; [done|]. split; [done|].
      split; [done|]. intros t Ht. by rewrite Ht in Hsch.
    + destruct (Hitems tier' gdf' Hin) as (new' & t' & ? & ? & Hbody & ? & Hs).
      assert (tier' ≠ tier) as Hne.
      { intros ->. apply Hfresh. apply list_elem_of_fmap.
        by exists (tier, gdf'). }
      assert (table_name_of tier ≠ table_name_of tier') as Hname
        by (by intros ?%table_name_of_inj).
      exists new', t'. split; [done|]. split; [done|].
      unfold stored_rows in *. rewrite lookup_insert_ne in Hbody by done.
      split; [done|]. split; [done|].
      intros t Ht. apply Hs. by rewrite lookup_insert_ne.
  - intros name Hname. rewrite Hother.
    + rewrite lookup_insert_ne; [done|].
      intros Heq. apply (Hname tier); [left|done].
    + intros tier' Hin. apply Hname. by right.
Qed.

(** A run over tables that are all there, with the right widths,
    returns. *)
Lemma run_existing items conn :
  (∀ tier gdf, (tier, gdf) ∈ items →
     ∃ new t, rows_to_insert gdf = Ok new ∧
              conn !! table_name_of tier = Some t ∧
              length (schema t) = length (columns gdf)) →
  returns (for_each populate items conn).
Proof.
  revert conn. induction items as [|[tier gdf] items IH]; intros conn Hall.
  { by exists conn. }
  destruct (Hall tier gdf) as (new & t & Hnew & Ht & Hw); [left|].
  rewrite for_each_cons, (populate_existing _ _ _ _ _ Ht Hw Hnew).
  simpl. apply IH. intros tier' gdf' Hin.
  destruct (Hall tier' gdf') as (new' & t' & Hnew' & Ht' & Hw'); [by right|].
  exists new'.
  destruct (decide (table_name_of tier = table_name_of tier')) as [Heq|Hne].
  - rewrite <- Heq, lookup_insert_eq. eexists. split; [done|].
    split; [done|]. simpl. rewrite <- Heq in Ht'. by simplify_eq.
  - rewrite lookup_insert_ne by done. eauto.
Qed.

(** The loop of [create_and_populate_tables] numbers the layers from 1,
    by position. *)
Lemma numbered_layers_NoDup (tier_gdfs : list (GeoDataFrame G)) :
  NoDup (imap (λ i gdf, (S i, gdf)) tier_gdfs).*1.
Proof.
  rewrite fmap_imap.
  rewrite (imap_ext _ (λ i _, S i)) by done.
  rewrite imap_seq_0. apply NoDup_fmap_2; [apply _|apply NoDup_seq].
Qed.

Lemma numbered_layers_lookup (tier_gdfs : list (GeoDataFrame G)) i gdf :
  tier_gdfs !! i = Some gdf →
  (S i, gdf) ∈ imap (λ i gdf, (S i, gdf)) tier_gdfs.
Proof.
  intros H.
  by apply (elem_of_lookup_imap_2 (λ i gdf, (S i, gdf)) tier_gdfs gdf i).
Qed.

Lemma for_each_snoc_length {A B} (f : A → result B) (xs : list A)
    (acc out : list B) :
  for_each (λ acc x, y ← f x; Ok (acc ++ [y])) xs acc = Ok out →
  length out = length acc + length xs.
Proof.
  revert acc. induction xs as [|x xs IH]; intros acc.
  - intros [= <-]. simpl. lia.
  - rewrite for_each_cons. intros (acc' & Hx & Hrest)%bind_Ok.
    apply bind_Ok in Hx as (y & _ & [= <-]).
    apply IH in Hrest. rewrite length_app in Hrest. simpl in *. lia.
Qed.

(** One row is inserted for each row of the layer. *)
Lemma rows_to_insert_length gdf new :
  rows_to_insert gdf = Ok new → length new = length (rows gdf).
Proof.
  unfold rows_to_insert, Database.rows_to_insert.
  by intros ->%for_each_snoc_length.
Qed.

(** C4: when a load run returns, a second run on the same layers
    returns too.  A table that was in the store before keeps its schema
    through both runs and its rows stay, in front.  The table of the
    layer at position [i] (from 0) is [Tier{i+1}_Areas]; after the first
    run it holds what it held before followed by the rows of the layer,
    one per feature, and after the second run it holds them twice. *)
Theorem create_and_populate_tables_twice conn
    (tier_gdfs : list (GeoDataFrame G)) conn1 :
  create_and_populate_tables wkt str_label conn tier_gdfs = Ok conn1 →
  ∃ conn2,
    create_and_populate_tables wkt str_label conn1 tier_gdfs = Ok conn2 ∧
    (∀ name t, conn !! name = Some t →
       ∃ t1 t2, conn1 !! name = Some t1 ∧ conn2 !! name = Some t2 ∧
                schema t1 = schema t ∧ schema t2 = schema t ∧
                body t `prefix_of` body t1 ∧
                body t1 `prefix_of` body t2) ∧
    (∀ i gdf, tier_gdfs !! i = Some gdf →
       ∃ new,
         rows_to_insert gdf = Ok new ∧
         length new = length (rows gdf) ∧
         stored_rows conn1 (table_name_of (S i))
         = stored_rows conn (table_name_of (S i)) ++ new ∧
         stored_rows conn2 (table_name_of (S i))
         = stored_rows conn (table_name_of (S i)) ++ new ++ new).
Proof.
  unfold create_and_populate_tables.
  set (items := imap (λ i gdf, (S i, gdf)) tier_gdfs).
  intros Hrun1.
  pose proof (numbered_layers_NoDup tier_gdfs) as Hnd. fold items in Hnd.
  destruct (run_Ok items conn conn1 Hnd Hrun1) as [Hitems1 Hother1].
  destruct (run_existing items conn1) as [conn2 Hrun2].
  { intros tier gdf Hin.
    destruct (Hitems1 tier gdf Hin) as (new & t' & ? & ? & _ & ? & _).
    eauto. }
  destruct (run_Ok items conn1 conn2 Hnd Hrun2) as [Hitems2 Hother2].
  exists conn2. split; [done|]. split.
  - intros name t Ht.
    destruct (decide (name ∈ table_name_of <$> items.*1)) as [Hin|Hnin].
    + apply list_elem_of_fmap in Hin as (tier & -> & Hin).
      apply list_elem_of_fmap in Hin as ([tier' gdf] & -> & Hin).
      simpl in *.
      destruct (Hitems1 tier' gdf Hin) as (new & t1 & _ & Ht1 & Hb1 & _ & Hs1).
      destruct (Hitems2 tier' gdf Hin) as (new' & t2 & _ & Ht2 & Hb2 & _ & Hs2).
      exists t1, t2. unfold stored_rows in *. rewrite Ht in Hb1.
      rewrite Ht1 in Hb2.
      split; [done|]. split; [done|]. split; [by apply Hs1|].
      split; [by rewrite (Hs2 t1 Ht1); apply Hs1|].
      split; [rewrite Hb1|rewrite Hb2]; by apply prefix_app_r.
    + assert (∀ tier, tier ∈ items.*1 → name ≠ table_name_of tier) as Hno.
      { intros tier Hin ->. apply Hnin. by apply list_elem_of_fmap_2. }
      exists t, t. rewrite Hother2, Hother1 by done. done.
  - intros i gdf Hi. apply numbered_layers_lookup in Hi. fold items in Hi.
    destruct (Hitems1 _ _ Hi) as (new & t1 & Hnew & Ht1 & Hb1 & _ & _).
    destruct (Hitems2 _ _ Hi) as (new' & t2 & Hnew' & Ht2 & Hb2 & _ & _).
    assert (new' = new) as -> by congruence.
    exists new. split; [done|].
    split; [by apply rows_to_insert_length|].
    unfold stored_rows in *. rewrite Ht1, Ht2.
    rewrite Ht1 in Hb2. rewrite Hb2, Hb1. by rewrite <- app_assoc.
Qed.

(** Tables are named by position.  When the loader and the store run
    return, the layer at position [i] (from 0) of the sequence is
    written to [Tier{i+1}_Areas], whatever its tier.  For a tier [k]
    that has a file, the layer the loader made of it sits at the
    position that counts the tiers below [k] with a file, so its rows go
    to a table whose number is at most [k], and is smaller than [k] as
    soon as some tier below [k] has no file. *)
Theorem table_named_by_position (intersects : G → G → bool)
    (archive : nat → option (GeoDataFrame G)) (n : nat)
    (layers : list (GeoDataFrame G)) conn conn' :
  load_and_join_tiers intersects archive n = Ok layers →
  create_and_populate_tables wkt str_label conn layers = Ok conn' →
  (∀ i gdf, layers !! i = Some gdf →
     ∃ new, rows_to_insert gdf = Ok new ∧
            stored_rows conn' (table_name_of (S i))
            = stored_rows conn (table_name_of (S i)) ++ new) ∧
  (∀ k f, 1 ≤ k ≤ n → archive k = Some f →
     ∃ layer new,
       layers !! position archive k = Some layer ∧
       load_tier intersects archive (take (position archive k) layers) k
       = Ok (take (position archive k) layers ++ [layer]) ∧
       rows_to_insert layer = Ok new ∧
       stored_rows conn' (table_name_of (S (position archive k)))
       = stored_rows conn (table_name_of (S (position archive k))) ++ new ∧
       S (position archive k) ≤ k ∧
       (∀ j, 1 ≤ j < k → archive j = None → S (position archive k) < k)).
Proof.
  intros Hload Hrun. unfold create_and_populate_tables in Hrun.
  destruct (run_Ok _ conn conn' (numbered_layers_NoDup layers) Hrun)
    as [Hitems _].
  assert (∀ i gdf, layers !! i = Some gdf →
            ∃ new, rows_to_insert gdf = Ok new ∧
                   stored_rows conn' (table_name_of (S i))
                   = stored_rows conn (table_name_of (S i)) ++ new) as Hpos.
  { intros i gdf Hi. apply numbered_layers_lookup in Hi.
    destruct (Hitems _ _ Hi) as (new & t' & Hnew & Ht' & Hb & _).
    exists new. split; [done|]. unfold stored_rows at 1. by rewrite Ht'. }
  split; [done|].
  intros k f Hk Hf.
  destruct (load_and_join_tiers_at intersects archive n layers k f Hload Hk Hf)
    as (layer & Hat & Hstep).
  destruct (Hpos _ _ Hat) as (new & Hnew & Hrows).
  exists layer, new. split; [done|]. split; [done|]. split; [done|].
  split; [done|]. split.
  - apply position_le. lia.
  - intros j Hj Hnone. by apply (position_lt archive k j).
Qed.

(** C10: when the file of tier 1 is missing and a later tier [k] has a
    file, the rows of tier [k] land in no table at all, under a lower
    number or any other: the run raises [IndexError] while loading,
    before the database is opened. *)
Theorem main_first_tier_missing (intersects : G → G → bool)
    (archive : nat → option (GeoDataFrame G)) conn (k : nat)
    (f : GeoDataFrame G) :
  1 < k ≤ 5 →
  (∀ j, 1 ≤ j < k → archive j = None) →
  archive k = Some f →
  load_and_join_tiers intersects archive 5 = Raise IndexError ∧
  Database.main intersects wkt str_label archive conn = Raise IndexError.
Proof.
  intros Hk Hnone Hf.
  assert (load_and_join_tiers intersects archive 5 = Raise IndexError)
    as Hload.
  { unfold load_and_join_tiers.
    replace 5 with ((k - 1) + S (5 - k)) by lia.
    rewrite seq_app, for_each_app.
    rewrite for_each_load_all_missing
      by (intros j Hj%elem_of_seq; apply Hnone; lia).
    replace (1 + (k - 1)) with k by lia. simpl.
    unfold load_tier at 1. rewrite Hf. by rewrite decide_True by lia. }
  split; [done|]. unfold Database.main. by rewrite Hload.
Qed.

End store.

Lemma main_first_tier_missing_witness :
  load_and_join_tiers overlap archive_2 5 = Raise IndexError ∧
  Database.main overlap interval_wkt pretty archive_2 ∅ = Raise IndexError.
Proof.
  apply (main_first_tier_missing interval_wkt pretty overlap archive_2 ∅ 2
           districts).
  - lia.
  - intros j Hj. assert (j = 1) as -> by lia. reflexivity.
  - reflexivity.
Defined.

Lemma create_and_populate_tables_twice_witness :
  ∃ conn1 conn2,
    create_and_populate_tables interval_wkt pretty ∅ [provinces; districts]
    = Ok conn1 ∧
    create_and_populate_tables interval_wkt pretty conn1 [provinces; districts]
    = Ok conn2 ∧
    ∃ new,
      rows_to_insert interval_wkt pretty districts = Ok new ∧
      length new = 2 ∧
      stored_rows conn1 "Tier2_Areas" = new ∧
      stored_rows conn2 "Tier2_Areas" = new ++ new.
Proof.
  eassert (create_and_populate_tables interval_wkt pretty ∅
             [provinces; districts] = Ok _) as Hrun1
    by (vm_compute; reflexivity).
  destruct (create_and_populate_tables_twice interval_wkt pretty ∅
              [provinces; districts] _ Hrun1)
    as (conn2 & Hrun2 & _ & Hrows).
  eexists. exists conn2. split; [exact Hrun1|]. split; [exact Hrun2|].
  destruct (Hrows 1 districts eq_refl) as (new & Hnew & Hlen & H1 & H2).
  exists new. split; [exact Hnew|]. split; [exact Hlen|].
  split; [exact H1|exact H2].
Defined.

Lemma table_named_by_position_witness :
  ∃ layers conn',
    load_and_join_tiers overlap archive_1_3 5 = Ok layers ∧
    create_and_populate_tables interval_wkt pretty ∅ layers = Ok conn' ∧
    ∃ layer new,
      layers !! 1 = Some layer ∧
      load_tier overlap archive_1_3 (take 1 layers) 3
      = Ok (take 1 layers ++ [layer]) ∧
      rows_to_insert interval_wkt pretty layer = Ok new ∧
      stored_rows conn' "Tier2_Areas" = new.
Proof.
  eassert (load_and_join_tiers overlap archive_1_3 5 = Ok _) as Hload
    by (vm_compute; reflexivity).
  match type of Hload with
  | _ = Ok ?layers =>
      eassert (create_and_populate_tables interval_wkt pretty ∅ layers = Ok _)
        as Hrun by (vm_compute; reflexivity)
  end.
  eexists. eexists. split; [exact Hload|]. split; [exact Hrun|].
  destruct (table_named_by_position interval_wkt pretty overlap archive_1_3 5
              _ ∅ _ Hload Hrun) as [_ Htier].
  destruct (Htier 3 districts ltac:(lia) eq_refl)
    as (layer & new & Hat & Hstep & Hnew & Hrows & _).
  exists layer, new. split; [exact Hat|]. split; [exact Hstep|].
  split; [exact Hnew|exact Hrows].
Defined.

(** ** The exporter *)

Section series.
Context {A B : Type} (f : A → result B).

Lemma series_apply_Ok xs ys :
  series_apply f xs = Ok ys ↔ Forall2 (λ x y, f x = Ok y) xs ys.
Proof.
  revert ys. induction xs as [|x xs IH]; intros ys; simpl.
  - split; [intros [= <-]; constructor|by intros ->%Forall2_nil_inv_l].
  - split.
    + intros (y & Hy & (ys' & Hys & [= <-])%bind_Ok)%bind_Ok.
      constructor; [done|by apply IH].
    + intros (y & ys' & Hy & Hys & ->)%Forall2_cons_inv_l.
      apply IH in Hys. unfold mbind, result_bind. rewrite Hy. simpl.
      unfold mbind, result_bind. by rewrite Hys.
Qed.

Lemma series_apply_returns xs :
  (∀ x, x ∈ xs → returns (f x)) → returns (series_apply f xs).
Proof.
  induction xs as [|x xs IH]; intros Hxs; simpl; [by eexists|].
  destruct (Hxs x) as [y Hy]; [left|].
  destruct IH as [ys Hys]; [intros ??; apply Hxs; by right|].
  exists (y :: ys). unfold mbind, result_bind. rewrite Hy. simpl.
  unfold mbind, result_bind. by rewrite Hys.
Qed.

(** When [f] can raise one exception only, the call raises it as soon
    as [f] raises on some element. *)
Lemma series_apply_Raise xs i x e :
  (∀ x' e', f x' = Raise e' → e' = e) →
  xs !! i = Some x → f x = Raise e →
  series_apply f xs = Raise e.
Proof.
  intros Honly. revert i.
  induction xs as [|x0 xs IH]; intros i Hi Hx; [done|]. simpl.
  unfold mbind, result_bind.
  destruct (f x0) as [y|e0] eqn:H0; simpl.
  - destruct i as [|i]; simpl in Hi; [congruence|].
    unfold mbind, result_bind. by rewrite (IH i Hi Hx).
  - by rewrite (Honly _ _ H0).
Qed.

End series.

Section exporter.
Context {G : Type} (wkt_loads : string → option G) (null_is_nan : bool).
Implicit Types (conn : gmap string table) (row : list (option string)).

Lemma convert_geometry_failure s :
  wkt_loads s = None →
  convert_geometry wkt_loads null_is_nan (Some s) = Ok NaN.
Proof. intros H. destruct s; [done|]. simpl. by rewrite H. Qed.

Lemma convert_geometry_success s g :
  s ≠ "" → wkt_loads s = Some g →
  convert_geometry wkt_loads null_is_nan (Some s) = Ok (Shape g).
Proof. intros Hs H. destruct s; [done|]. simpl. by rewrite H. Qed.

(** A text never makes the conversion raise, whether it parses or not. *)
Lemma convert_geometry_text s :
  returns (convert_geometry wkt_loads null_is_nan (Some s)).
Proof.
  destruct s as [|c s]; simpl; [by eexists|].
  destruct (wkt_loads _); by eexists.
Qed.

(** The conversion raises on a NULL delivered as [nan], and only there. *)
Lemma convert_geometry_Raise v e :
  convert_geometry wkt_loads null_is_nan v = Raise e ↔
  v = None ∧ null_is_nan = true ∧ e = TypeError.
Proof.
  split.
  - destruct v as [[|c s]|]; simpl; [done| |].
    + by destruct (wkt_loads _).
    + destruct null_is_nan; [by intros [= <-]|done].
  - by intros (-> & -> & ->).
Qed.

(** When no NULL of the [Geometry] column is delivered as [nan], the
    read returns a frame, with the columns of the table and one row for
    each of its rows.  In every row the cells
    outside the [Geometry] column are those of the table; the [Geometry]
    cell is the parsed geometry when its text parses, and is missing
    when the text does not parse or the cell is empty. *)
Theorem read_table_as_gdf_rows conn table_name t k :
  conn !! table_name = Some t →
  column_index "Geometry" (schema t) = Some k →
  (null_is_nan = true →
   ∀ row, row ∈ body t → ∃ s, row !! k = Some (Some s)) →
  ∃ gdf,
    read_table_as_gdf wkt_loads null_is_nan conn table_name = Ok gdf ∧
    columns gdf = schema t ∧
    length (rows gdf) = length (body t) ∧
    ∀ i row, body t !! i = Some row →
      ∃ out,
        rows gdf !! i = Some out ∧
        length out = length row ∧
        (∀ j v, j ≠ k → row !! j = Some v → out !! j = Some (sql_cell v)) ∧
        (∀ s, row !! k = Some (Some s) → wkt_loads s = None →
              out !! k = Some NaN) ∧
        (∀ s g, row !! k = Some (Some s) → s ≠ "" →
                wkt_loads s = Some g → out !! k = Some (Shape g)) ∧
        (row !! k = Some None → out !! k = Some NaN).
Proof.
  intros Ht Hk Htext. unfold read_table_as_gdf. rewrite Ht, Hk.
  destruct (series_apply_returns (convert_geometry wkt_loads null_is_nan)
              (column_at k (body t))) as [geometry Hgeo].
  { intros v (row & -> & Hrow)%list_elem_of_fmap.
    destruct (row !! k) as [[s|]|] eqn:Hv; simpl.
    - apply convert_geometry_text.
    - destruct null_is_nan eqn:Hnan; [|by eexists].
      destruct (Htext eq_refl row Hrow) as [s Hs]. congruence.
    - destruct null_is_nan eqn:Hnan; [|by eexists].
      destruct (Htext eq_refl row Hrow) as [s Hs]. congruence. }
  unfold mbind, result_bind. rewrite Hgeo. simpl.
  apply series_apply_Ok in Hgeo.
  pose proof (Forall2_length _ _ _ Hgeo) as Hlen.
  unfold column_at in Hlen. rewrite length_fmap in Hlen.
  eexists. split; [done|]. simpl. split; [done|].
  split; [rewrite length_zip_with; lia|].
  intros i row Hrow.
  destruct (Forall2_lookup_l _ _ _ i (default None (row !! k)) Hgeo)
    as (g & Hg & Hconv).
  { unfold column_at. by rewrite list_lookup_fmap, Hrow. }
  rewrite lookup_zip_with, Hrow, Hg. simpl.
  eexists. split; [done|]. split; [by rewrite length_imap|].
  split; [|split; [|split]].
  - intros j v Hj Hv. rewrite list_lookup_imap, Hv. simpl.
    by rewrite decide_False.
  - intros s Hs Hfail. rewrite list_lookup_imap, Hs. simpl.
    rewrite decide_True by done. f_equal.
    rewrite Hs in Hconv. change (default None (Some (Some s))) with (Some s)
      in Hconv.
    rewrite convert_geometry_failure in Hconv by done. congruence.
  - intros s g' Hs Hne Hparse. rewrite list_lookup_imap, Hs. simpl.
    rewrite decide_True by done. f_equal.
    rewrite Hs in Hconv. change (default None (Some (Some s))) with (Some s)
      in Hconv.
    rewrite (convert_geometry_success s g') in Hconv by done. congruence.
  - intros Hs. rewrite list_lookup_imap, Hs. simpl.
    rewrite decide_True by done. f_equal.
    rewrite Hs in Hconv. simpl in Hconv.
    destruct null_is_nan; [done|congruence].
Qed.

End exporter.

(** C8: take a table with a [Geometry] column in which some cell is
    NULL, read with a pandas that delivers NULL as [nan].  The read does
    not return a frame: the conversion of that cell raises a
    [TypeError], which is not caught.  No row of the table is exported,
    so a cell of another row whose text fails to parse does not yield a
    row with a missing geometry. *)
Theorem read_table_as_gdf_null_geometry {G} (wkt_loads : string → option G)
    (conn : gmap string table) (table_name : string) (t : table)
    (k i : nat) (row : list (option string)) :
  conn !! table_name = Some t →
  column_index "Geometry" (schema t) = Some k →
  body t !! i = Some row →
  row !! k = Some None →
  read_table_as_gdf wkt_loads true conn table_name = Raise TypeError.
Proof.
  intros Ht Hk Hrow Hnull. unfold read_table_as_gdf. rewrite Ht, Hk.
  unfold mbind, result_bind.
  rewrite (series_apply_Raise _ _ i None TypeError); [done| | |done].
  - by intros v e (_ & _ & ->)%convert_geometry_Raise.
  - unfold column_at. rewrite list_lookup_fmap, Hrow. simpl.
    by rewrite Hnull.
Qed.

Lemma read_table_as_gdf_null_geometry_witness :
  read_table_as_gdf interval_loads true store_with_null_geometry "Tier1_Areas"
  = Raise TypeError.
Proof.
  apply (read_table_as_gdf_null_geometry interval_loads
           store_with_null_geometry "Tier1_Areas"
           {| schema := ["Service_Area_Zone_de_service"; "Name"; "Geometry"];
              body := [ [Some "1-001"; Some "East";
                         Some "LINESTRING (0 0, 9 0)"];
                        [Some "1-002"; Some "West";
                         Some "LINESTRING (10 0"];
                        [Some "1-003"; Some "North"; None] ] |}
           2 2 [Some "1-003"; Some "North"; None]).
  - vm_compute. reflexivity.
  - vm_compute. reflexivity.
  - reflexivity.
  - reflexivity.
Defined.

Lemma read_table_as_gdf_rows_witness :
  ∃ gdf,
    read_table_as_gdf interval_loads true store_with_bad_geometry "Tier1_Areas"
    = Ok gdf ∧
    rows gdf = [ [Text "1-001"; Text "East"; Shape (0, 9)];
                 [Text "1-002"; Text "West"; NaN] ].
Proof.
  destruct (read_table_as_gdf_rows interval_loads true
              store_with_bad_geometry "Tier1_Areas"
              {| schema := ["Service_Area_Zone_de_service"; "Name"; "Geometry"];
                 body := [ [Some "1-001"; Some "East";
                            Some "LINESTRING (0 0, 9 0)"];
                           [Some "1-002"; Some "West";
                            Some "LINESTRING (10 0"] ] |} 2)
    as (gdf & Hread & _).
  - vm_compute. reflexivity.
  - vm_compute. reflexivity.
  - intros _ row Hrow. simpl in Hrow.
    apply elem_of_cons in Hrow as [-> | Hrow]; [by eexists|].
    apply elem_of_cons in Hrow as [-> | Hrow]; [by eexists|].
    by apply elem_of_nil in Hrow.
  - exists gdf. split; [exact Hread|].
    vm_compute in Hread. by injection Hread as <-.
Defined.

(** * Further properties *)

(** ** Shape of the formatted ranges *)

Section formatter.
Implicit Types (r : regex) (s rest : list ascii) (caps c : captures).

Lemma digit_run_le_length s : digit_run s ≤ length s.
Proof.
  induction s as [|ch s IH]; simpl; [done|]. destruct (is_digit ch); lia.
Qed.

Lemma digit_run_take n s :
  n ≤ digit_run s → Forall (λ ch, is_digit ch = true) (take n s).
Proof.
  revert n. induction s as [|ch s IH]; intros [|n]; simpl; try done.
  destruct (is_digit ch) eqn:Hd; [|lia]. intros Hn.
  constructor; [done|]. apply IH. lia.
Qed.

Lemma captured_number n s :
  3 ≤ n ≤ 4 `min` digit_run s →
  number34 (take (length s - length (drop n s)) s).
Proof.
  intros Hn. pose proof (digit_run_le_length s).
  rewrite length_drop. replace (length s - (length s - n)) with n by lia.
  split; [rewrite length_take; lia|]. apply digit_run_take. lia.
Qed.

Lemma range2_numbers i j sep s caps c rest :
  (c, rest) ∈ matches (range2 i j sep) s caps →
  ∃ a b, c = <[j := Some b]> (<[i := Some a]> caps) ∧
         number34 a ∧ number34 b.
Proof.
  unfold range2.
  rewrite elem_of_matches_Cat. intros (c1 & s1 & H1 & H).
  apply elem_of_matches_Group in H1 as (c0 & H0 & Hc1).
  apply elem_of_matches_Digits in H0 as (Hc0 & n & Hn & Hs1).
  apply elem_of_matches_Cat in H as (c2 & s2 & H2 & H).
  apply elem_of_matches_Lit in H2 as [Hc2 _].
  apply elem_of_matches_Cat in H as (c3 & s3 & H3 & H).
  assert (c3 = c2) as Hc3.
  { apply elem_of_matches_Opt in H3 as [H3 | [? _]]; [|done].
    by apply elem_of_matches_Lit in H3 as [? _]. }
  apply elem_of_matches_Group in H as (c4 & H4 & Hc).
  apply elem_of_matches_Digits in H4 as (Hc4 & m & Hm & Hrest).
  subst. eexists _, _. split; [done|].
  split; by apply captured_number.
Qed.

Lemma match_at_pattern_numbers s c rest :
  match_at pattern 8 s = Some (c, rest) →
  ∃ a b, range_captures c a b ∧ number34 a ∧ number34 b.
Proof.
  unfold match_at, pattern. rewrite !matches_Alt. intros Hhead.
  apply head_Some_elem_of in Hhead as Hin.
  destruct (matches hyphen_range s (replicate 8 None)) as [|m ms] eqn:Hh.
  - destruct (matches slash_range s (replicate 8 None)) as [|m ms] eqn:Hs.
    + simpl in Hin. apply hyphen_range_shadows in Hin. by destruct Hin.
    + simpl in Hhead. injection Hhead as ->.
      assert ((c, rest) ∈ matches slash_range s (replicate 8 None)) as H
        by (rewrite Hs; left).
      apply range2_numbers in H as (a & b & -> & ? & ?).
      exists a, b. split; [by right|done].
  - simpl in Hhead. injection Hhead as ->.
    assert ((c, rest) ∈ matches hyphen_range s (replicate 8 None)) as H
      by (rewrite Hh; left).
    apply range2_numbers in H as (a & b & -> & ? & ?).
    exists a, b. split; [by left|done].
Qed.

Lemma findall_from_pattern_numbers s k :
  Forall (λ c, ∃ a b, range_captures c a b ∧ number34 a ∧ number34 b)
    (findall_from pattern 8 k s).
Proof.
  revert k. induction s as [|ch s IH]; intros k.
  - destruct k; simpl; constructor.
  - destruct k as [|k]; simpl; [|by apply IH].
    destruct (match_at pattern 8 (ch :: s)) as [[c' rest]|] eqn:Hm;
      [|by apply IH].
    constructor; [by eapply match_at_pattern_numbers|by apply IH].
Qed.

Lemma number34_nonempty a :
  number34 a → nonempty (string_of_list_ascii a) = true.
Proof. intros [Hlen _]. destruct a; simpl in *; [lia|done]. Qed.

Lemma format_match_range c a b :
  range_captures c a b → number34 a → number34 b →
  format_match (group_tuple c) = [range_text (a, b)].
Proof.
  intros Hc Ha%number34_nonempty Hb%number34_nonempty.
  unfold format_match, range_text.
  destruct Hc as [-> | ->]; simpl;
    repeat (rewrite filter_cons; case_decide; simpl in *; try congruence);
    by rewrite filter_nil.
Qed.

Lemma format_matches_ranges (found : list captures) :
  Forall (λ c, ∃ a b, range_captures c a b ∧ number34 a ∧ number34 b) found →
  ∃ ranges,
    Forall (λ p, number34 p.1 ∧ number34 p.2) ranges ∧
    (group_tuple <$> found) ≫= format_match = range_text <$> ranges.
Proof.
  induction 1 as [|c found (a & b & Hc & Ha & Hb) _ (ranges & Hall & IH)].
  - by exists [].
  - exists ((a, b) :: ranges). split; [by constructor|].
    rewrite fmap_cons, bind_cons, IH.
    by rewrite (format_match_range c a b).
Qed.

End formatter.


(** ** Canonical ranges are read back as they are *)

Section canonical.
Implicit Types (s t rest a b : list ascii) (c : captures).

Lemma digit_run_app a t :
  Forall (λ ch, is_digit ch = true) a → digit_run t = 0 →
  digit_run (a ++ t) = length a.
Proof.
  intros Ha Ht. induction Ha as [|ch a Hch _ IH]; simpl; [done|].
  by rewrite Hch, IH.
Qed.

Lemma bind_nil {A B} (f : A → list B) : [] ≫= f = [].
Proof. done. Qed.

Lemma matches_Cat r1 r2 s c :
  matches (Cat r1 r2) s c = m ← matches r1 s c; matches r2 m.2 m.1.
Proof. done. Qed.

Lemma matches_Group_Digits i lo hi s c :
  matches (Group i (Digits lo hi)) s c
  = (λ n, (<[i := Some (take n s)]> c, drop n s))
      <$> greedy lo (hi `min` digit_run s).
Proof.
  simpl. rewrite <- list_fmap_compose.
  apply Forall_fmap_ext_1, Forall_forall. intros n Hn%elem_of_greedy. simpl.
  pose proof (digit_run_le_length s).
  rewrite length_drop. by replace (length s - (length s - n)) with n by lia.
Qed.

(** The ways a number of the pattern is read off the front of a text
    that goes on with a non-digit: all of it first, and for four digits
    the first three as second choice. *)
Lemma matches_number i a t c :
  number34 a → digit_run t = 0 →
  matches (Group i (Digits 3 4)) (a ++ t) c
  = (<[i := Some a]> c, t)
    :: (if decide (length a = 4)
        then [(<[i := Some (take 3 a)]> c, drop 3 a ++ t)] else []).
Proof.
  intros [Hlen Ha] Ht. rewrite matches_Group_Digits.
  rewrite digit_run_app by done.
  assert (length a = 3 ∨ length a = 4) as [Hl|Hl] by lia; rewrite Hl.
  - change (greedy 3 (4 `min` 3)) with [3]. simpl.
    rewrite <- Hl at 1 2. by rewrite take_app_length, drop_app_length.
  - change (greedy 3 (4 `min` 4)) with [4; 3]. simpl.
    rewrite <- Hl at 1 2. rewrite take_app_length, drop_app_length.
    by rewrite take_app_le, drop_app_le by lia.
Qed.

Lemma matches_number_none i t c :
  digit_run t = 0 → matches (Group i (Digits 3 4)) t c = [].
Proof. intros Ht. rewrite matches_Group_Digits, Ht. done. Qed.

Lemma number34_head a :
  number34 a → ∃ ch a', a = ch :: a' ∧ is_digit ch = true.
Proof.
  intros [Hlen Ha]. destruct a as [|ch a']; simpl in *; [lia|].
  apply Forall_cons in Ha as [? _]. eauto.
Qed.

Lemma number34_drop3 a :
  number34 a → length a = 4 → ∃ ch, drop 3 a = [ch] ∧ is_digit ch = true.
Proof.
  intros [_ Ha] Hl. destruct a as [|a1 [|a2 [|a3 [|a4 [|]]]]]; try done.
  exists a4. split; [done|].
  do 3 (apply Forall_cons in Ha as [_ Ha]). by apply Forall_cons in Ha as [? _].
Qed.

Lemma matches_space_number j (space : bool) b rest c :
  number34 b → digit_run rest = 0 →
  (m ← matches (Opt (Lit " "%char))
         ((if space then [" "%char] else []) ++ b ++ rest) c;
   matches (Group j (Digits 3 4)) m.2 m.1)
  = matches (Group j (Digits 3 4)) (b ++ rest) c.
Proof.
  intros Hb Hrest. destruct space.
  - simpl (matches (Opt _) _ _). rewrite !bind_cons, bind_nil.
    cbn [fst snd].
    rewrite (matches_number_none j (" "%char :: _)) by done.
    by rewrite !app_nil_r.
  - destruct (number34_head b Hb) as (b1 & b' & -> & Hb1).
    simpl (matches (Opt _) _ _). rewrite decide_False.
    2: { intros ->. done. }
    rewrite app_nil_l. by rewrite bind_cons, bind_nil, app_nil_r.
Qed.

(** A range [a sep b], with or without a space after the separator and
    followed by a non-digit, is matched whole by the alternative for its
    separator, which captures [a] and [b]. *)
Lemma matches_range2 i j sep (space : bool) a b rest c :
  is_digit sep = false →
  number34 a → number34 b → digit_run rest = 0 →
  ∃ more,
    matches (range2 i j sep)
      (a ++ sep :: (if space then [" "%char] else []) ++ b ++ rest) c
    = (<[j := Some b]> (<[i := Some a]> c), rest) :: more.
Proof.
  intros Hsep Ha Hb Hrest. unfold range2. rewrite matches_Cat.
  rewrite matches_number; [|done|by simpl; rewrite Hsep].
  rewrite bind_cons. cbn [fst snd].
  rewrite matches_Cat. simpl (matches (Lit sep) _ _).
  rewrite decide_True by done. rewrite bind_cons, bind_nil, app_nil_r.
  cbn [fst snd]. rewrite matches_Cat.
  rewrite matches_space_number by done.
  rewrite (matches_number j b rest) by done. simpl. eauto.
Qed.

(** The alternative for the other separator does not match there. *)
Lemma matches_range2_other i j sep sep' a t c :
  sep' ≠ sep → is_digit sep = false → is_digit sep' = false →
  number34 a →
  matches (range2 i j sep) (a ++ sep' :: t) c = [].
Proof.
  intros Hne Hsep Hsep' Ha. unfold range2. rewrite matches_Cat.
  rewrite matches_number; [|done|by simpl; rewrite Hsep'].
  rewrite bind_cons. cbn [fst snd].
  rewrite matches_Cat. simpl (matches (Lit sep) _ _).
  rewrite decide_False by done. rewrite bind_nil.
  case_decide as Hl; [|done].
  destruct (number34_drop3 a Ha Hl) as (ch & -> & Hch).
  rewrite bind_cons, bind_nil, app_nil_r. cbn [fst snd].
  rewrite matches_Cat. simpl (matches (Lit sep) _ _).
  rewrite decide_False; [done|]. intros ->. congruence.
Qed.

Lemma match_at_hyphen_range (space : bool) a b rest :
  number34 a → number34 b → digit_run rest = 0 →
  match_at pattern 8
    (a ++ "-"%char :: (if space then [" "%char] else []) ++ b ++ rest)
  = Some ([Some a; Some b; None; None; None; None; None; None], rest).
Proof.
  intros Ha Hb Hrest. unfold match_at, pattern, hyphen_range.
  rewrite !matches_Alt.
  destruct (matches_range2 0 1 "-" space a b rest (replicate 8 None))
    as [more ->]; done.
Qed.

Lemma match_at_slash_range (space : bool) a b rest :
  number34 a → number34 b → digit_run rest = 0 →
  match_at pattern 8
    (a ++ "/"%char :: (if space then [" "%char] else []) ++ b ++ rest)
  = Some ([None; None; Some a; Some b; None; None; None; None], rest).
Proof.
  intros Ha Hb Hrest. unfold match_at, pattern, hyphen_range, slash_range.
  rewrite !matches_Alt.
  rewrite (matches_range2_other 0 1 "-" "/") by done.
  destruct (matches_range2 2 3 "/" space a b rest (replicate 8 None))
    as [more ->]; done.
Qed.

Lemma findall_from_skip r g pre s :
  findall_from r g (length pre) (pre ++ s) = findall_from r g 0 s.
Proof. induction pre as [|ch pre IH]; simpl; [by destruct s|done]. Qed.

Lemma findall_from_match r g m rest c :
  m ≠ [] →
  match_at r g (m ++ rest) = Some (c, rest) →
  findall_from r g 0 (m ++ rest) = c :: findall_from r g 0 rest.
Proof.
  intros Hm Hmatch. destruct m as [|ch m]; [done|].
  simpl. simpl in Hmatch. rewrite Hmatch. f_equal.
  rewrite length_app.
  replace (pred (S (length m + length rest) - length rest)) with (length m)
    by lia.
  apply findall_from_skip.
Qed.

Lemma findall_from_non_digit ch s :
  is_digit ch = false →
  findall_from pattern 8 0 (ch :: s) = findall_from pattern 8 0 s.
Proof.
  intros Hch. simpl.
  assert (match_at pattern 8 (ch :: s) = None) as ->; [|done].
  unfold match_at, pattern, hyphen_range, slash_range, concatenated_ranges,
    range2.
  rewrite !matches_Alt, !matches_Cat.
  rewrite !matches_number_none by (by simpl; rewrite Hch). done.
Qed.

End canonical.

Section reformat.
Implicit Types (a b : list ascii) (ranges : list (list ascii * list ascii)).

Lemma list_ascii_of_range_text a b :
  list_ascii_of_string (range_text (a, b)) = a ++ "-"%char :: b.
Proof.
  unfold range_text. simpl.
  rewrite !list_ascii_of_string_app, !list_ascii_of_string_of_list_ascii.
  done.
Qed.

Lemma findall_from_canonical ranges :
  Forall (λ p, number34 p.1 ∧ number34 p.2) ranges →
  findall_from pattern 8 0
    (list_ascii_of_string (join " " (range_text <$> ranges)))
  = (λ p, [Some p.1; Some p.2; None; None; None; None; None; None])
      <$> ranges.
Proof.
  induction 1 as [|[a b] ranges [Ha Hb] Hall IH]; [done|].
  simpl in Ha, Hb. rewrite !fmap_cons.
  assert (a ++ "-"%char :: b ≠ []) as Hne by (by destruct a).
  destruct ranges as [|q ranges].
  - simpl (join _ _). rewrite list_ascii_of_range_text.
    rewrite <- (app_nil_r (a ++ _ :: b)).
    rewrite (findall_from_match _ _ _ []
               [Some a; Some b; None; None; None; None; None; None] Hne);
      [done|].
    rewrite <- app_assoc. simpl.
    by apply (match_at_hyphen_range false a b []).
  - change (join " " (range_text (a, b) :: (range_text <$> (q :: ranges))))
      with (range_text (a, b) +:+ " "
            +:+ join " " (range_text <$> (q :: ranges))).
    rewrite !list_ascii_of_string_app, list_ascii_of_range_text.
    change (list_ascii_of_string " ") with [" "%char].
    set (rest :=
           list_ascii_of_string (join " " (range_text <$> (q :: ranges))))
      in *.
    rewrite (findall_from_match _ _ _ _
               [Some a; Some b; None; None; None; None; None; None] Hne).
    + change ([" "%char] ++ rest) with (" "%char :: rest).
      rewrite findall_from_non_digit by done. by rewrite IH.
    + rewrite <- app_assoc. simpl.
      by apply (match_at_hyphen_range false a b ([" "%char] ++ rest)).
Qed.

Lemma format_matches_canonical ranges :
  Forall (λ p, number34 p.1 ∧ number34 p.2) ranges →
  (group_tuple <$>
     ((λ p, [Some p.1; Some p.2; None; None; None; None; None; None])
        <$> ranges)) ≫= format_match
  = range_text <$> ranges.
Proof.
  induction 1 as [|[a b] ranges [Ha Hb] Hall IH]; [done|].
  rewrite !fmap_cons, bind_cons, IH.
  rewrite (format_match_range _ a b); [done|by left|done..].
Qed.

End reformat.

(** Formatting is idempotent: the result for any text is returned
    unchanged when it is formatted again. *)
Theorem format_frequency_range_idempotent (freq_range : string) :
  format_frequency_range (format_frequency_range freq_range)
  = format_frequency_range freq_range.
Proof.
  destruct (format_matches_ranges
              (findall_from pattern 8 0 (list_ascii_of_string freq_range)))
    as (ranges & Hall & Hfound); [apply findall_from_pattern_numbers|].
  assert (format_frequency_range freq_range
          = join " " (range_text <$> ranges)) as ->.
  { unfold format_frequency_range, findall. by rewrite Hfound. }
  unfold format_frequency_range, findall.
  rewrite findall_from_canonical by done.
  by rewrite format_matches_canonical.
Qed.

(** A single range written with any of the accepted separators (hyphen or
    slash, with or without a space after it) is formatted as [a-b]. *)
Theorem format_frequency_range_single (a b : list ascii)
    (slash space : bool) :
  number34 a → number34 b →
  format_frequency_range
    (string_of_list_ascii (a ++ separator slash space ++ b))
  = range_text (a, b).
Proof.
  intros Ha Hb. unfold format_frequency_range, findall, separator.
  rewrite list_ascii_of_string_of_list_ascii.
  assert (a ++ ((if slash then "/"%char else "-"%char)
                :: (if space then [" "%char] else [])) ++ b ≠ []) as Hne
    by (by destruct a).
  rewrite <- (app_nil_r (a ++ _ ++ b)).
  destruct slash.
  - rewrite (findall_from_match _ _ _ []
               [None; None; Some a; Some b; None; None; None; None] Hne).
    + simpl (findall_from _ _ _ []).
      rewrite fmap_cons, bind_cons.
      rewrite (format_match_range _ a b); [done|by right|done..].
    + rewrite <- !app_assoc. simpl.
      by apply (match_at_slash_range space a b []).
  - rewrite (findall_from_match _ _ _ []
               [Some a; Some b; None; None; None; None; None; None] Hne).
    + simpl (findall_from _ _ _ []).
      rewrite fmap_cons, bind_cons.
      rewrite (format_match_range _ a b); [done|by left|done..].
    + rewrite <- !app_assoc. simpl.
      by apply (match_at_hyphen_range space a b []).
Qed.

Lemma format_frequency_range_single_witness :
  format_frequency_range "3450/ 3475" = "3450-3475".
Proof.
  apply (format_frequency_range_single
           (list_ascii_of_string "3450") (list_ascii_of_string "3475")
           true true);
    (split; [simpl; lia|by repeat constructor]).
Defined.

(** ** Text without a number *)

Section no_number.
Implicit Types (s t : list ascii).





End no_number.



(** ** More on the listing scan *)

Section scan.
Implicit Types (rows : list (option string)) (links : list string)
  (cursor : value).

Lemma scan_rows_take rows cursor links :
  ∃ n,
    scan_rows rows cursor links = links ++ take n (row_links rows) ∧
    Forall (λ l, str_eq l cursor = false) (take n (row_links rows)) ∧
    (n = length (row_links rows) ∨
     ∃ l, row_links rows !! n = Some l ∧ str_eq l cursor = true).
Proof.
  revert links. induction rows as [|[h|] rows IH]; intros links; simpl.
  - exists 0. rewrite app_nil_r. split; [done|]. split; [constructor|by left].
  - rewrite row_links_cons_Some.
    destruct (str_eq (full_href h) cursor) eqn:Heq.
    + exists 0. rewrite app_nil_r. split; [done|].
      split; [constructor|]. right. by exists (full_href h).
    + destruct (IH (links ++ [full_href h])) as (n & -> & Hall & Hstop).
      exists (S n). rewrite <- app_assoc. split; [done|].
      split; [by constructor|].
      destruct Hstop as [->|Hstop]; [by left|by right].
  - rewrite row_links_cons_None. apply IH.
Qed.


End scan.

(** The decision links returned are, oldest first, exactly the row links
    that stand above the first row whose link equals the cursor -- all of
    them when no row carries the cursor -- and the cursor itself is never
    among them. *)
Theorem extract_decision_links_above_cursor
    (rows : list (option string)) (cursor : value) :
  ∃ n,
    extract_decision_links rows cursor = reverse (take n (row_links rows)) ∧
    Forall (λ l, str_eq l cursor = false)
      (extract_decision_links rows cursor) ∧
    (n = length (row_links rows) ∨
     ∃ l, row_links rows !! n = Some l ∧ str_eq l cursor = true).
Proof.
  unfold extract_decision_links.
  destruct (scan_rows_take rows cursor []) as (n & -> & Hall & Hstop).
  exists n. simpl. split; [done|]. split; [|done].
  by apply Forall_reverse.
Qed.


(** ** A crawl run *)

Section crawl.
Implicit Types (web : site) (fs : filesystem) (links : list string)
  (log : list (gmap string string)).

(** The file system after a cursor has been written. *)
Lemma save_last_visited_writable href fs :
  writable fs = true →
  save_last_visited href fs
  = Ok {| last_visited_file :=
            Some (Json (VDict {[ "last_visited" := VStr href ]}));
          writable := true |}.
Proof.
  intros Hw. unfold save_last_visited, open_w_dump. by rewrite Hw.
Qed.

Lemma get_last_visited_saved href w :
  get_last_visited
    {| last_visited_file :=
         Some (Json (VDict {[ "last_visited" := VStr href ]}));
       writable := w |}
  = Ok (VStr href).
Proof. rewrite get_last_visited_object. by rewrite lookup_singleton_eq. Qed.

(** A loop that ends without exception has logged the records of every
    page in turn and left the cursor at the last link. *)
Lemma visit_links_done web links fs log :
  writable fs = true →
  raised (visit_links web links fs log) = None →
  emitted (visit_links web links fs log)
  = log ++ (links ≫= λ l, records_of (decision_page web l)) ∧
  files (visit_links web links fs log)
  = match last links with
    | Some l =>
        {| last_visited_file :=
             Some (Json (VDict {[ "last_visited" := VStr l ]}));
           writable := true |}
    | None => fs
    end.
Proof.
  revert fs log. induction links as [|l links IH]; intros fs log Hw; simpl.
  { intros _. by rewrite app_nil_r. }
  unfold records_of.
  destruct (extract_data (decision_page web l)) as [data|e]; [|done].
  rewrite save_last_visited_writable by done.
  intros Hdone. apply IH in Hdone as [-> ->]; [|done].
  rewrite <- app_assoc. split; [done|].
  rewrite last_cons. by destruct (last links).
Qed.

(** The newest of the new links is the link of the first row that has
    one. *)
Lemma scan_rows_newest rows cursor links l :
  last (extract_decision_links rows cursor) = Some l →
  head (row_links rows) = Some l.
Proof.
  unfold extract_decision_links.
  destruct (scan_rows_take rows cursor []) as (n & -> & _). simpl.
  rewrite last_reverse. destruct n, (row_links rows); naive_solver.
Qed.

Lemma scan_rows_at_cursor rows l links :
  head (row_links rows) = Some l →
  scan_rows rows (VStr l) links = links.
Proof.
  induction rows as [|[h|] rows IH]; [done| |].
  - rewrite row_links_cons_Some. intros [= <-]. simpl.
    by rewrite bool_decide_true.
  - rewrite row_links_cons_None. simpl. exact IH.
Qed.

End crawl.

(** A run that ended without exception, on a writable cursor file, is
    not repeated: a second run against the same site visits no page,
    logs nothing and leaves the cursor where it is.  This holds also for
    the pages whose fetch failed in the first run. *)
Theorem crawl_rerun_visits_nothing (web : site) (fs : filesystem) :
  writable fs = true →
  raised (Decisions.main web fs) = None →
  Decisions.main web (files (Decisions.main web fs))
  = {| files := files (Decisions.main web fs); emitted := []; raised := None |}.
Proof.
  intros Hw Hdone. unfold Decisions.main in *.
  destruct (get_last_visited fs) as [cursor|e] eqn:Hget; [|done].
  destruct (listing web) as [rows|] eqn:Hlist; simpl in *.
  { destruct (visit_links_done web _ fs [] Hw Hdone) as [_ Hfiles].
    destruct (last (extract_decision_links rows cursor)) as [l|] eqn:Hlast.
    - rewrite Hfiles, get_last_visited_saved.
      apply scan_rows_newest in Hlast; [|exact []].
      unfold extract_decision_links.
      rewrite (scan_rows_at_cursor rows l []) by done. done.
    - apply last_None in Hlast. rewrite Hlast in *. simpl.
      by rewrite Hget, Hlast. }
  by rewrite Hget.
Qed.



Lemma crawl_rerun_visits_nothing_witness :
  raised (Decisions.main small_site writable_disk) = None ∧
  length (emitted (Decisions.main small_site writable_disk)) = 1 ∧
  Decisions.main small_site (files (Decisions.main small_site writable_disk))
  = {| files := files (Decisions.main small_site writable_disk);
       emitted := []; raised := None |}.
Proof.
  split; [by vm_compute|]. split; [by vm_compute|].
  apply (crawl_rerun_visits_nothing small_site writable_disk); by vm_compute.
Defined.



(** ** More on the records of a decision table *)

Section table_rows.
Implicit Types (headers cols : list string)
  (data cells r : gmap string string) (k field : string).

Lemma build_from_cons headers n col cols data :
  build_from headers n (col :: cols) data
  = match headers !! n with
    | Some h => build_from headers (S n) cols (<[h := replace_nbsp col]> data)
    | None => Raise IndexError
    end.
Proof.
  unfold build_from. rewrite imap_cons, for_each_cons, Nat.add_0_r.
  rewrite (imap_ext _ (λ i col, (S n + i, col)))
    by (intros; simpl; f_equal; lia).
  by destruct (headers !! n).
Qed.

Lemma build_record_from headers cols :
  build_record headers cols = build_from headers 0 cols ∅.
Proof. done. Qed.

Lemma build_from_too_wide headers n cols data :
  n ≤ length headers →
  length headers < n + length cols →
  build_from headers n cols data = Raise IndexError.
Proof.
  revert n data. induction cols as [|col cols IH]; intros n data Hn Hlen.
  - simpl in Hlen. lia.
  - rewrite build_from_cons. destruct (headers !! n) eqn:Hh; [|done].
    apply lookup_lt_Some in Hh. simpl in Hlen. apply IH; lia.
Qed.

Lemma build_from_fits headers n cols data :
  NoDup headers →
  n + length cols ≤ length headers →
  ∃ out,
    build_from headers n cols data = Ok out ∧
    (∀ i h, headers !! i = Some h →
       out !! h = if decide (n ≤ i < n + length cols)
                  then replace_nbsp <$> cols !! (i - n) else data !! h) ∧
    (∀ k, k ∉ headers → out !! k = data !! k).
Proof.
  intros Hnd. revert n data.
  induction cols as [|col cols IH]; intros n data Hlen.
  - exists data. split; [done|]. split; [|done].
    intros i h _. simpl. by rewrite decide_False by lia.
  - rewrite build_from_cons. simpl in Hlen.
    destruct (lookup_lt_is_Some_2 headers n) as [hn Hn]; [lia|].
    rewrite Hn.
    destruct (IH (S n) (<[hn := replace_nbsp col]> data)) as
      (out & -> & Hin & Hout); [lia|].
    exists out. split; [done|]. split.
    + intros i h Hi. rewrite (Hin i h Hi). simpl.
      destruct (decide (i = n)) as [->|Hne].
      * assert (h = hn) as -> by congruence.
        rewrite decide_False by lia. rewrite decide_True by lia.
        rewrite Nat.sub_diag. simpl. apply lookup_insert_eq.
      * assert (h ≠ hn) as Hh.
        { intros ->. apply Hne. by eapply NoDup_lookup. }
        rewrite lookup_insert_ne by done.
        repeat case_decide; try lia; try done.
        by replace (i - n) with (S (i - S n)) by lia.
    + intros k Hk. rewrite Hout by done. apply lookup_insert_ne.
      intros ->. apply Hk. by eapply list_elem_of_lookup_2.
Qed.

Lemma build_from_returns headers n cols data :
  n + length cols ≤ length headers →
  returns (build_from headers n cols data).
Proof.
  revert n data. induction cols as [|col cols IH]; intros n data Hlen.
  - by exists data.
  - rewrite build_from_cons. simpl in Hlen.
    destruct (lookup_lt_is_Some_2 headers n) as [hn ->]; [lia|].
    apply IH. lia.
Qed.

Lemma process_row_returns headers title row :
  length (td row) ≤ length headers →
  ∃ r, process_row headers title row = Ok r ∧ r !! "Table Title" = Some title.
Proof.
  intros Hlen.
  destruct (build_from_returns headers 0 (td row) ∅ Hlen) as [data Hdata].
  rewrite (process_row_built _ _ _ data) by done.
  eexists. split; [done|]. apply lookup_insert_eq.
Qed.

Lemma process_row_too_wide headers title row :
  length headers < length (td row) →
  process_row headers title row = Raise IndexError.
Proof.
  intros Hlen. unfold process_row.
  rewrite build_record_from, build_from_too_wide by (simpl; lia). done.
Qed.

Lemma for_each_rows_fit headers title rest acc :
  Forall (λ row, length (td row) ≤ length headers) rest →
  ∃ new,
    for_each
      (λ data_list row,
         data ← process_row headers title row; Ok (data_list ++ [data]))
      rest acc = Ok (acc ++ new) ∧
    length new = length rest ∧
    Forall (λ r, r !! "Table Title" = Some title) new.
Proof.
  intros Hfit. revert acc.
  induction Hfit as [|row rest Hrow _ IH]; intros acc.
  - exists []. by rewrite app_nil_r.
  - rewrite for_each_cons.
    destruct (process_row_returns headers title row Hrow) as (r & -> & Hr).
    simpl. destruct (IH (acc ++ [r])) as (new & -> & Hlen & Hall).
    exists (r :: new). rewrite <- app_assoc. split; [done|].
    split; [simpl; lia|by constructor].
Qed.

Lemma for_each_rows_too_wide headers title rest acc :
  Exists (λ row, length headers < length (td row)) rest →
  for_each
    (λ data_list row,
       data ← process_row headers title row; Ok (data_list ++ [data]))
    rest acc = Raise IndexError.
Proof.
  intros Hbad. revert acc.
  induction rest as [|row rest IH]; intros acc; [by apply Exists_nil in Hbad|].
  rewrite for_each_cons.
  destruct (decide (length headers < length (td row))) as [Hw|Hfit].
  - by rewrite process_row_too_wide.
  - destruct (process_row_returns headers title row) as (r & -> & _); [lia|].
    simpl. apply IH. by apply Exists_cons in Hbad as [?|?].
Qed.

End table_rows.

(** The dictionary of a data row, for a header without repeated names and
    a row that has no more cells than the header: the [i]-th header names
    the [i]-th cell, with non-breaking spaces made plain; header names
    beyond the last cell of the row are absent, and no other key is
    there. *)
Theorem build_record_cells (headers cols : list string) :
  NoDup headers →
  length cols ≤ length headers →
  ∃ cells,
    build_record headers cols = Ok cells ∧
    (∀ i h, headers !! i = Some h →
       cells !! h = replace_nbsp <$> cols !! i) ∧
    (∀ k, k ∉ headers → cells !! k = None).
Proof.
  intros Hnd Hlen. rewrite build_record_from.
  destruct (build_from_fits headers 0 cols ∅ Hnd) as (cells & -> & Hin & Hout);
    [done|].
  exists cells. split; [done|]. split.
  - intros i h Hi. rewrite (Hin i h Hi), Nat.sub_0_r.
    case_decide as Hi'; [done|].
    rewrite lookup_empty. symmetry. rewrite fmap_None.
    apply lookup_ge_None. lia.
  - intros k Hk. by rewrite Hout.
Qed.

Lemma build_record_cells_witness :
  ∃ cells,
    build_record ["Licensee"; "Frequency range (MHz)"; "Notes"]
      ["Acme"; "470/ 512"] = Ok cells ∧
    cells !! "Licensee" = Some "Acme" ∧
    cells !! "Notes" = None.
Proof.
  destruct (build_record_cells ["Licensee"; "Frequency range (MHz)"; "Notes"]
              ["Acme"; "470/ 512"]) as (cells & Hcells & Hin & _).
  - apply (bool_decide_unpack _). vm_compute. exact I.
  - simpl. lia.
  - exists cells. split; [exact Hcells|]. split.
    + apply (Hin 0). reflexivity.
    + apply (Hin 2). reflexivity.
Defined.

(** A table is turned into records exactly when none of its data rows
    has more cells than the header row: then there is one record per data
    row, each with the table title; otherwise the call ends with
    [IndexError]. *)
Theorem extract_data_rows_fit (doc : page) (t : html_table) (first : tr)
    (rest : list tr) :
  bordered_table doc = Some t →
  trs t = first :: rest →
  (Forall (λ row, length (td row) ≤ length (th first)) rest →
   ∃ records,
     extract_data (Some doc) = Ok records ∧
     length records = length rest ∧
     Forall (λ r, r !! "Table Title"
                  = Some (default "Unknown Table Title" (caption t)))
       records) ∧
  (Exists (λ row, length (th first) < length (td row)) rest →
   extract_data (Some doc) = Raise IndexError).
Proof.
  intros Ht Hrows. unfold extract_data. rewrite Ht.
  destruct t as [cap rs]. simpl in *. subst rs. split.
  - intros Hfit.
    destruct (for_each_rows_fit (replace_nbsp <$> th first)
                (default "Unknown Table Title" cap) rest [])
      as (new & -> & Hlen & Hall).
    { by rewrite length_fmap. }
    by exists new.
  - intros Hbad. apply for_each_rows_too_wide. by rewrite length_fmap.
Qed.

Lemma extract_data_rows_fit_witness :
  (∃ records,
     extract_data (Some (licence_page "Tier 3 Southern Ontario")) = Ok records ∧
     length records = 1) ∧
  extract_data (Some wide_page) = Raise IndexError.
Proof.
  split.
  - destruct (extract_data_rows_fit (licence_page "Tier 3 Southern Ontario")
                _ _ _ eq_refl eq_refl) as [Hfit _].
    destruct Hfit as (records & Hrec & Hlen & _).
    { repeat constructor. }
    exists records. split; [exact Hrec|exact Hlen].
  - destruct (extract_data_rows_fit wide_page _ _ _ eq_refl eq_refl)
      as [_ Hbad].
    apply Hbad. left. simpl. lia.
Defined.

Section record_fields.
Implicit Types (data cells r : gmap string string) (k field : string).

Lemma row_record_built doc i cells r :
  row_record doc i cells r →
  ∃ title,
    r = <["Table Title" := title]>
          (foldl split_field (foldl format_field cells frequency_fields)
             tier_fields).
Proof.
  intros (t & first & rest & records & row & Ht & Hrows & Hdata & Hrow & Hr
          & Hcells).
  pose proof (extract_data_rows _ _ _ _ _ Ht Hrows Hdata) as Hall.
  pose proof (Forall2_lookup_lr _ _ _ _ _ _ Hall Hrow Hr) as Hproc.
  cbv beta in Hproc. rewrite (process_row_built _ _ _ _ Hcells) in Hproc.
  eexists. by injection Hproc as <-.
Qed.

Lemma format_field_same data field :
  format_field data field !! field = format_frequency_range <$> data !! field.
Proof.
  unfold format_field. destruct (data !! field) as [v|] eqn:Hv.
  - by rewrite lookup_insert_eq.
  - by rewrite Hv.
Qed.

Lemma format_fields_same data k :
  k ∈ frequency_fields →
  foldl format_field data frequency_fields !! k
  = format_frequency_range <$> data !! k.
Proof.
  unfold frequency_fields. rewrite !elem_of_cons, elem_of_nil.
  intros [->|[->|[->|[]]]]; simpl;
    rewrite ?format_field_same, ?format_field_other by done;
    rewrite ?format_field_same, ?format_field_other by done; done.
Qed.

End record_fields.

(** Apart from the combined tier fields, the two fields derived from
    them and the table title, a record has the cells of its row: a
    frequency field put through [format_frequency_range], every other
    field as it is in the row. *)
Theorem record_keeps_other_fields (doc : page) (i : nat)
    (cells r : gmap string string) (k : string) :
  row_record doc i cells r →
  k ∉ tier_fields →
  k ≠ "Tier number" → k ≠ "Geographic area of the licence" →
  k ≠ "Table Title" →
  r !! k = if decide (k ∈ frequency_fields)
           then format_frequency_range <$> cells !! k
           else cells !! k.
Proof.
  intros [title ->]%row_record_built Htier Htn Hga Htt.
  rewrite lookup_insert_ne by done.
  rewrite foldl_split_field_other by done.
  case_decide.
  - by apply format_fields_same.
  - by apply format_fields_other.
Qed.

Lemma record_keeps_other_fields_witness :
  default ∅ (records_of (Some (licence_page "Tier 3 Southern Ontario")) !! 0)
    !! "Frequency range (MHz)" = Some "470-512".
Proof.
  pose (doc := licence_page "Tier 3 Southern Ontario").
  pose (cells := <["Frequency range (MHz)" := "470/ 512"]>
                  ({[ "Tier number and geographic area of the licence"
                      := "Tier 3 Southern Ontario" ]} : gmap string string)).
  rewrite (record_keeps_other_fields doc 0 cells
             (default ∅ (records_of (Some doc) !! 0)) "Frequency range (MHz)").
  - vm_compute. reflexivity.
  - eexists _, _, _, (records_of (Some doc)), _.
    split; [reflexivity|]. split; [reflexivity|].
    split; [vm_compute; reflexivity|]. split; [reflexivity|].
    split; [vm_compute; reflexivity|]. vm_compute. reflexivity.
  - unfold tier_fields. rewrite !not_elem_of_cons.
    repeat split; try done. apply not_elem_of_nil.
  - done.
  - done.
  - done.
Defined.

(** ** More on the tier loader *)

Section more_tiers.
Context {G : Type} (intersects : G → G → bool).
Implicit Types (archive : nat → option (GeoDataFrame G))
  (acc layers : list (GeoDataFrame G)) (f : GeoDataFrame G).

Lemma for_each_load_length archive tiers acc layers :
  for_each (load_tier intersects archive) tiers acc = Ok layers →
  length layers
  = length acc + length (filter (λ j, is_Some (archive j)) tiers).
Proof.
  revert acc. induction tiers as [|k tiers IH]; intros acc.
  - intros [= <-]. simpl. lia.
  - rewrite for_each_cons. intros (acc' & Hk & Hrest)%bind_Ok.
    apply IH in Hrest. rewrite Hrest, filter_cons.
    destruct (archive k) as [f|] eqn:Hf.
    + destruct (load_tier_present _ _ _ _ _ _ Hf Hk) as (layer & ->).
      rewrite decide_True by eauto. rewrite length_app. simpl. lia.
    + rewrite load_tier_missing in Hk by done. injection Hk as <-.
      rewrite decide_False; [done|]. by intros [? [=]].
Qed.

(** The loader returns one layer for each tier that has a file, and
    none for the others; the layer of tier 1 is the layer of its file,
    unchanged. *)
Theorem load_and_join_tiers_layers archive n layers :
  load_and_join_tiers intersects archive n = Ok layers →
  length layers = length (filter (λ j, is_Some (archive j)) (seq 1 n)) ∧
  (∀ f1, 1 ≤ n → archive 1 = Some f1 → layers !! 0 = Some f1).
Proof.
  intros Hrun. split.
  - by apply for_each_load_length in Hrun.
  - intros f1 Hn H1.
    destruct (load_and_join_tiers_at intersects archive n layers 1 f1 Hrun)
      as (layer & Hat & Hstep); [lia|done|].
    change (position archive 1) with 0 in *. simpl in Hstep.
    change [layer] with ([] ++ [layer]) in Hstep.
    apply (load_tier_first intersects archive [] f1 layer H1) in Hstep.
    by subst.
Qed.

(** When the layer of tier 1 has no area column, the loader raises
    [KeyError] at the next tier that has a file. *)
Theorem load_and_join_tiers_without_area_column archive n k f1 f :
  archive 1 = Some f1 →
  Service_Area ∉ columns f1 →
  1 < k ≤ n →
  (∀ j, 1 < j < k → archive j = None) →
  archive k = Some f →
  load_and_join_tiers intersects archive n = Raise KeyError.
Proof.
  intros H1 Hsa Hk Hnone Hf. unfold load_and_join_tiers.
  replace n with (1 + ((k - 2) + S (n - k))) by lia.
  rewrite seq_app, for_each_app. simpl (seq 1 1).
  rewrite for_each_cons. unfold load_tier at 1. rewrite H1. simpl.
  rewrite seq_app, for_each_app.
  rewrite for_each_load_all_missing
    by (intros j Hj%elem_of_seq; apply Hnone; lia).
  replace (2 + (k - 2)) with k by lia. simpl.
  unfold load_tier at 1. rewrite Hf. rewrite decide_True by lia. simpl.
  unfold select2.
  destruct (column_index Service_Area (columns f1)) eqn:Hc; [|done].
  destruct Hsa. apply column_index_is_Some. eauto.
Qed.

End more_tiers.


Lemma load_and_join_tiers_layers_witness :
  ∃ layers,
    load_and_join_tiers overlap archive_1_3 5 = Ok layers ∧
    length layers
    = length (filter (λ j, is_Some (archive_1_3 j)) (seq 1 5)) ∧
    layers !! 0 = Some provinces.
Proof.
  eassert (load_and_join_tiers overlap archive_1_3 5 = Ok _) as Hload
    by (vm_compute; reflexivity).
  destruct (load_and_join_tiers_layers overlap archive_1_3 5 _ Hload)
    as [Hlen Hfirst].
  eexists. split; [exact Hload|]. split; [exact Hlen|].
  apply Hfirst; [lia|reflexivity].
Defined.

Lemma load_and_join_tiers_without_area_column_witness :
  load_and_join_tiers overlap archive_unnamed 5 = Raise KeyError.
Proof.
  apply (load_and_join_tiers_without_area_column overlap archive_unnamed 5 3
           unnamed_provinces districts).
  - reflexivity.
  - apply (bool_decide_unpack _). vm_compute. exact I.
  - lia.
  - intros j Hj. assert (j = 2) as -> by lia. reflexivity.
  - reflexivity.
Defined.

Section more_join.
Context {G : Type} (intersects : G → G → bool).
Implicit Types (left right parent gdf f : GeoDataFrame G)
  (lrow prow jrow : list (cell G))
  (archive : nat → option (GeoDataFrame G)).


Lemma sjoin_left_length left right :
  length (rows (sjoin_left intersects left right))
  = sum_list_with
      (λ lrow, 1 `max` length (partners intersects left right lrow))
      (rows left).
Proof.
  unfold sjoin_left. simpl.
  induction (rows left) as [|lrow lrows IH]; [done|].
  rewrite bind_cons, length_app, IH. simpl. f_equal.
  destruct (partners intersects left right lrow) as [|p ps]; [done|].
  etrans; [apply (length_fmap _ (p :: ps))|simpl; lia].
Qed.


(** The layer of a tier above the first has one row for every pair of
    a feature and a parent feature that intersect, and one for every
    feature without such a parent: never fewer rows than the tier's
    file, and more as soon as a feature meets two parents. *)
Theorem joined_layer_row_count archive n layers k f :
  load_and_join_tiers intersects archive n = Ok layers →
  1 < k ≤ n →
  archive k = Some f →
  ∃ parent right joined,
    last (take (position archive k) layers) = Some parent ∧
    select2 parent Service_Area "geometry" = Ok right ∧
    layers !! position archive k = Some joined ∧
    length (rows joined)
    = sum_list_with
        (λ lrow, 1 `max` length (partners intersects f right lrow))
        (rows f) ∧
    length (rows f) ≤ length (rows joined).
Proof.
  intros Hrun Hk Hf.
  destruct (load_and_join_tiers_at intersects archive n layers k f Hrun)
    as (joined & Hat & Hstep); [lia|done|].
  destruct (load_tier_joined intersects _ _ _ _ _ (proj1 Hk) Hf Hstep)
    as (parent & right & Hlast & Hsel & ->).
  exists parent, right. eexists. split; [done|]. split; [done|].
  split; [done|]. unfold rename. cbn [rows].
  rewrite sjoin_left_length. split; [done|].
  induction (rows f) as [|lrow lrows IH]; simpl; lia.
Qed.


End more_join.

Lemma joined_layer_row_count_witness :
  ∃ layers parent right joined,
    load_and_join_tiers overlap archive_1_3 5 = Ok layers ∧
    last (take (position archive_1_3 3) layers) = Some parent ∧
    select2 parent Service_Area "geometry" = Ok right ∧
    layers !! position archive_1_3 3 = Some joined ∧
    length (rows joined)
    = sum_list_with
        (λ lrow, 1 `max` length (partners overlap districts right lrow))
        (rows districts) ∧
    length (rows districts) ≤ length (rows joined).
Proof.
  eassert (load_and_join_tiers overlap archive_1_3 5 = Ok _) as Hload
    by (vm_compute; reflexivity).
  destruct (joined_layer_row_count overlap archive_1_3 5 _ 3 districts Hload)
    as (parent & right & joined & H); [lia|reflexivity|].
  eexists. exists parent, right, joined. split; [exact Hload|exact H].
Defined.


(** ** More on loading into the store *)

Lemma column_index_NoDup (cols : list string) j col :
  NoDup cols → cols !! j = Some col → column_index col cols = Some j.
Proof.
  intros Hnd Hj. unfold column_index.
  destruct (list_find (λ c, c = col) cols) as [[i c]|] eqn:Hfind.
  - apply list_find_Some in Hfind as (Hi & -> & _). simpl. f_equal.
    by eapply NoDup_lookup.
  - apply list_find_None in Hfind. rewrite Forall_forall in Hfind.
    destruct (Hfind col); [by eapply list_elem_of_lookup_2|done].
Qed.

Section more_store.
Context {G : Type} (wkt : G → string) (str_label : nat → string).
Implicit Types (conn : gmap string table) (gdf : GeoDataFrame G)
  (items : list (nat * GeoDataFrame G)) (tier : nat)
  (row : list (cell G)) (data : list (option string)).

Local Abbreviation populate := (populate wkt str_label).
Local Abbreviation rows_to_insert := (rows_to_insert wkt str_label).
Local Abbreviation row_data := (row_data wkt str_label).
Local Abbreviation str := (str wkt str_label).
Local Abbreviation column_text := (column_text wkt str_label).

Lemma row_data_columns gdf_columns row data :
  row_data gdf_columns row = Ok data →
  Forall2 (column_text gdf_columns row) gdf_columns data.
Proof.
  unfold row_data, Database.row_data.
  assert (∀ cols acc out,
            for_each
              (λ acc col,
                 match row_get gdf_columns row col with
                 | None => Raise KeyError
                 | Some c =>
                     if decide (col = "geometry") then
                       match c with
                       | Shape g => Ok (acc ++ [Some (wkt g)])
                       | _ => Raise AttributeError
                       end
                     else Ok (acc ++ [Some (str c)])
                 end) cols acc = Ok out →
            ∃ new, out = acc ++ new ∧
                   Forall2 (column_text gdf_columns row) cols new) as Hloop.
  { induction cols as [|col cols IH]; intros acc out.
    - intros [= <-]. exists []. by rewrite app_nil_r.
    - rewrite for_each_cons. intros (acc' & Hcol & Hrest)%bind_Ok.
      apply IH in Hrest as (new & -> & Hnew).
      destruct (row_get gdf_columns row col) as [c|] eqn:Hc; [|done].
      case_decide as Hgeo.
      + destruct c as [| | |g]; try done. injection Hcol as <-.
        exists (Some (wkt g) :: new). rewrite <- app_assoc. split; [done|].
        constructor; [|done]. exists (Shape g). eauto.
      + injection Hcol as <-.
        exists (Some (str c) :: new). rewrite <- app_assoc. split; [done|].
        constructor; [|done]. exists c. split; [done|]. split; [done|].
        by intros ->. }
  intros (new & -> & Hnew)%Hloop. done.
Qed.

Lemma rows_to_insert_rows gdf new :
  rows_to_insert gdf = Ok new →
  Forall2 (λ row data, row_data (columns gdf) row = Ok data) (rows gdf) new.
Proof.
  unfold rows_to_insert, Database.rows_to_insert.
  assert (∀ rs acc out,
            for_each
              (λ acc row, data ← row_data (columns gdf) row; Ok (acc ++ [data]))
              rs acc = Ok out →
            ∃ new, out = acc ++ new ∧
                   Forall2 (λ row data, row_data (columns gdf) row = Ok data)
                     rs new) as Hloop.
  { induction rs as [|row rs IH]; intros acc out.
    - intros [= <-]. exists []. by rewrite app_nil_r.
    - rewrite for_each_cons. intros (acc' & Hrow & Hrest)%bind_Ok.
      apply IH in Hrest as (new' & -> & Hnew).
      apply bind_Ok in Hrow as (data & Hdata & [= <-]).
      exists (data :: new'). rewrite <- app_assoc. split; [done|].
      by constructor. }
  intros (new' & -> & Hnew)%Hloop. done.
Qed.

Lemma run_fresh_schema items conn conn' tier gdf :
  NoDup items.*1 →
  for_each populate items conn = Ok conn' →
  (tier, gdf) ∈ items →
  conn !! table_name_of tier = None →
  ∃ t, conn' !! table_name_of tier = Some t ∧
       schema t
       = filter (λ col, col ≠ "geometry") (columns gdf) ++ ["Geometry"].
Proof.
  revert conn. induction items as [|[tier0 gdf0] items IH]; intros conn Hnd.
  { by intros _ ?%elem_of_nil. }
  rewrite fmap_cons in Hnd. apply NoDup_cons in Hnd as [Hfresh Hnd].
  rewrite for_each_cons. intros (conn1 & Hstep & Hrest)%bind_Ok Hin Hnone.
  apply populate_Ok in Hstep as (new & sch & Hnew & -> & Hlen & Hsch).
  apply elem_of_cons in Hin as [[= -> ->]|Hin].
  - destruct (run_Ok wkt str_label items _ conn' Hnd Hrest) as [_ Hother].
    rewrite Hother.
    2: { intros tier' Hin' Heq%table_name_of_inj. by subst. }
    rewrite lookup_insert_eq. rewrite Hnone in Hsch. subst sch. eauto.
  - apply (IH _ Hnd Hrest Hin).
    rewrite lookup_insert_ne; [done|].
    intros Heq%table_name_of_inj. subst. apply Hfresh.
    apply list_elem_of_fmap. by exists (tier, gdf).
Qed.

Lemma run_layer conn (tier_gdfs : list (GeoDataFrame G)) conn' i gdf :
  create_and_populate_tables wkt str_label conn tier_gdfs = Ok conn' →
  tier_gdfs !! i = Some gdf →
  ∃ new t',
    rows_to_insert gdf = Ok new ∧
    conn' !! table_name_of (S i) = Some t' ∧
    body t' = stored_rows conn (table_name_of (S i)) ++ new ∧
    (conn !! table_name_of (S i) = None →
     schema t'
     = filter (λ col, col ≠ "geometry") (columns gdf) ++ ["Geometry"]).
Proof.
  unfold create_and_populate_tables. intros Hrun Hi.
  pose proof (numbered_layers_NoDup tier_gdfs) as Hnum.
  destruct (run_Ok wkt str_label _ conn conn' Hnum Hrun) as [Hitems _].
  apply numbered_layers_lookup in Hi as Hin.
  destruct (Hitems _ _ Hin) as (new & t' & Hnew & Ht' & Hb & _).
  exists new, t'. split; [done|]. split; [done|]. split; [done|].
  intros Hnone.
  destruct (run_fresh_schema _ _ _ _ _ Hnum Hrun Hin Hnone) as (t & Ht & Hs).
  rewrite Ht' in Ht. by injection Ht as <-.
Qed.

Lemma stored_cell gdf new r row data j col :
  rows_to_insert gdf = Ok new →
  NoDup (columns gdf) →
  rows gdf !! r = Some row → new !! r = Some data →
  columns gdf !! j = Some col →
  ∃ c, row !! j = Some c ∧ data !! j = Some (Some (str c)) ∧
       (col = "geometry" → ∃ g, c = Shape g).
Proof.
  intros Hnew Hnd Hrow Hdata Hcol.
  pose proof (rows_to_insert_rows gdf new Hnew) as Hrows.
  pose proof (Forall2_lookup_lr _ _ _ _ _ _ Hrows Hrow Hdata) as Hrd.
  apply row_data_columns in Hrd.
  destruct (Forall2_lookup_l _ _ _ _ _ Hrd Hcol)
    as (text & Htext & c & Hget & -> & Hgeo).
  exists c. split; [|done].
  unfold row_get in Hget. by rewrite (column_index_NoDup _ j) in Hget.
Qed.





(** After a run the store has a table for every position of the
    sequence of layers, and every table with another name is what it was
    before. *)
Theorem create_and_populate_tables_touches conn
    (tier_gdfs : list (GeoDataFrame G)) conn' :
  create_and_populate_tables wkt str_label conn tier_gdfs = Ok conn' →
  (∀ i, i < length tier_gdfs → is_Some (conn' !! table_name_of (S i))) ∧
  (∀ name, (∀ i, i < length tier_gdfs → name ≠ table_name_of (S i)) →
           conn' !! name = conn !! name).
Proof.
  unfold create_and_populate_tables. intros Hrun.
  destruct (run_Ok wkt str_label _ conn conn' (numbered_layers_NoDup tier_gdfs)
              Hrun) as [Hitems Hother].
  split.
  - intros i Hi. destruct (lookup_lt_is_Some_2 tier_gdfs i Hi) as [gdf Hgdf].
    apply numbered_layers_lookup in Hgdf.
    destruct (Hitems _ _ Hgdf) as (new & t' & _ & Ht' & _). eauto.
  - intros name Hname. apply Hother. intros tier Hin.
    apply list_elem_of_fmap in Hin as ([tier' gdf] & -> & Hin).
    apply elem_of_lookup_imap in Hin as (i & gdf' & [= -> ->] & Hi).
    apply Hname. by eapply lookup_lt_Some.
Qed.

(** How a layer lies in its table.  A table made by the run has the
    layer's columns other than the geometry, in their order, followed by
    [Geometry].  Each row appended holds the texts of the feature's
    cells in the order of the layer's own columns, the well-known text
    standing where the layer has its geometry column. *)
Theorem stored_rows_follow_layer_columns conn
    (tier_gdfs : list (GeoDataFrame G)) conn' i gdf :
  create_and_populate_tables wkt str_label conn tier_gdfs = Ok conn' →
  tier_gdfs !! i = Some gdf →
  NoDup (columns gdf) →
  ∃ new,
    stored_rows conn' (table_name_of (S i))
    = stored_rows conn (table_name_of (S i)) ++ new ∧
    length new = length (rows gdf) ∧
    (conn !! table_name_of (S i) = None →
     ∃ t, conn' !! table_name_of (S i) = Some t ∧
          schema t
          = filter (λ col, col ≠ "geometry") (columns gdf) ++ ["Geometry"]) ∧
    (∀ r row data j col,
       rows gdf !! r = Some row → new !! r = Some data →
       columns gdf !! j = Some col →
       ∃ c, row !! j = Some c ∧ data !! j = Some (Some (str c)) ∧
            (col = "geometry" → ∃ g, c = Shape g)).
Proof.
  intros Hrun Hi Hnd.
  destruct (run_layer _ _ _ _ _ Hrun Hi) as (new & t' & Hnew & Ht' & Hb & Hs).
  exists new. split; [unfold stored_rows at 1; by rewrite Ht'|].
  split; [by eapply rows_to_insert_length|]. split.
  - intros Hnone. exists t'. auto.
  - intros r row data j col Hrow Hdata Hcol. by eapply stored_cell.
Qed.


End more_store.

Lemma create_and_populate_tables_touches_witness :
  ∃ conn',
    create_and_populate_tables interval_wkt pretty ∅ [provinces; districts]
    = Ok conn' ∧
    is_Some (conn' !! table_name_of 2) ∧
    conn' !! "Tier3_Areas" = (∅ : gmap string table) !! "Tier3_Areas".
Proof.
  eassert (create_and_populate_tables interval_wkt pretty ∅
             [provinces; districts] = Ok _) as Hrun
    by (vm_compute; reflexivity).
  destruct (create_and_populate_tables_touches interval_wkt pretty ∅
              [provinces; districts] _ Hrun) as [Hmade Hother].
  eexists. split; [exact Hrun|]. split.
  - apply (Hmade 1). simpl. lia.
  - apply Hother. intros i Hi.
    destruct i as [|[|i]]; [by vm_compute|by vm_compute|simpl in Hi; lia].
Defined.

Lemma stored_rows_follow_layer_columns_witness :
  ∃ conn' new,
    create_and_populate_tables interval_wkt pretty ∅ [provinces; districts]
    = Ok conn' ∧
    stored_rows conn' (table_name_of 2)
    = stored_rows ∅ (table_name_of 2) ++ new ∧
    length new = length (rows districts).
Proof.
  eassert (create_and_populate_tables interval_wkt pretty ∅
             [provinces; districts] = Ok _) as Hrun
    by (vm_compute; reflexivity).
  assert (NoDup (columns districts)) as Hnd.
  { apply (bool_decide_unpack _). vm_compute. exact I. }
  destruct (stored_rows_follow_layer_columns interval_wkt pretty ∅
              [provinces; districts] _ 1 districts Hrun eq_refl Hnd)
    as (new & Hrows & Hlen & _).
  eexists. exists new. split; [exact Hrun|]. split; [exact Hrows|exact Hlen].
Defined.


(** ** From the loader to the exporter *)

Section read_back.
Context {G : Type} (wkt : G → string) (str_label : nat → string).
Context (wkt_loads : string → option G) (null_is_nan : bool).
Implicit Types (conn : gmap string table) (gdf : GeoDataFrame G).

Lemma filter_attributes (attrs : list string) :
  "geometry" ∉ attrs →
  filter (λ col, col ≠ "geometry") (attrs ++ ["geometry"]) = attrs.
Proof.
  intros Hno. rewrite filter_app.
  rewrite (filter_cons_False _ "geometry") by (by intros ?).
  rewrite filter_nil, app_nil_r.
  induction attrs as [|a attrs IH]; [done|].
  apply not_elem_of_cons in Hno as [Ha Hno].
  rewrite filter_cons_True by done. by rewrite IH.
Qed.

Lemma read_geometry_table conn table_name t k geometry :
  conn !! table_name = Some t →
  column_index "Geometry" (schema t) = Some k →
  series_apply (convert_geometry wkt_loads null_is_nan)
    (column_at k (body t)) = Ok geometry →
  read_table_as_gdf wkt_loads null_is_nan conn table_name
  = Ok {| columns := schema t;
          rows := zip_with
                    (λ row g,
                       imap (λ j v, if decide (j = k) then g
                                    else sql_cell v) row)
                    (body t) geometry |}.
Proof.
  intros Ht Hk Hgeo. unfold read_table_as_gdf. rewrite Ht, Hk.
  unfold mbind, result_bind. by rewrite Hgeo.
Qed.

(** A layer whose geometry column is the last one, written by the loader
    into a table the store did not have, is read back by the exporter:
    the frame has the layer's attribute columns followed by [Geometry],
    one row for each feature, the attributes as their texts and the
    geometry itself, provided the reader of well-known text inverts the
    writer on the geometries of the layer. *)
Theorem tier_table_read_back conn (tier_gdfs : list (GeoDataFrame G)) conn'
    i gdf (attrs : list string) :
  create_and_populate_tables wkt str_label conn tier_gdfs = Ok conn' →
  tier_gdfs !! i = Some gdf →
  columns gdf = attrs ++ ["geometry"] →
  NoDup (columns gdf) →
  "Geometry" ∉ attrs →
  conn !! table_name_of (S i) = None →
  Forall (λ row,
            Forall (λ c, match c with
                         | Shape g => wkt g ≠ "" ∧ wkt_loads (wkt g) = Some g
                         | _ => True
                         end) row) (rows gdf) →
  ∃ out,
    read_table_as_gdf wkt_loads null_is_nan conn' (table_name_of (S i))
    = Ok out ∧
    columns out = attrs ++ ["Geometry"] ∧
    length (rows out) = length (rows gdf) ∧
    ∀ r row, rows gdf !! r = Some row →
      ∃ orow,
        rows out !! r = Some orow ∧
        ∀ j c, j ≤ length attrs → row !! j = Some c →
          orow !! j = Some (if decide (j = length attrs) then c
                            else Text (str wkt str_label c)).
Proof.
  intros Hrun Hi Hcols Hnd Hfresh Hnone Hinv.
  destruct (run_layer wkt str_label _ _ _ _ _ Hrun Hi)
    as (new & t' & Hnew & Ht' & Hbody & Hschema).
  specialize (Hschema Hnone).
  assert (NoDup attrs ∧ "geometry" ∉ attrs) as [Hattrs Hgeo].
  { rewrite Hcols in Hnd.
    apply NoDup_app in Hnd as (? & Hsep & _). split; [done|].
    intros Hin. apply (Hsep _ Hin). left. }
  rewrite Hcols, filter_attributes in Hschema by done.
  unfold stored_rows in Hbody. rewrite Hnone in Hbody. simpl in Hbody.
  pose proof (rows_to_insert_length wkt str_label _ _ Hnew) as Hlen.
  set (k := length attrs).
  assert (column_index "Geometry" (schema t') = Some k) as Hk.
  { rewrite Hschema. apply column_index_NoDup.
    - apply NoDup_app. split; [done|]. split; [|apply NoDup_singleton].
      intros col Hcol ->%list_elem_of_singleton. done.
    - by apply list_lookup_middle. }
  assert (columns gdf !! k = Some "geometry") as Hkcol.
  { rewrite Hcols. by apply list_lookup_middle. }
  assert (∀ r row j c, rows gdf !! r = Some row → j ≤ k →
            row !! j = Some c →
            ∃ data, new !! r = Some data ∧
                    data !! j = Some (Some (str wkt str_label c)) ∧
                    (j = k → ∃ g, c = Shape g)) as Hcell.
  { intros r row j c Hrow Hj Hc.
    destruct (lookup_lt_is_Some_2 new r) as [data Hdata].
    { rewrite Hlen. by eapply lookup_lt_Some. }
    destruct (lookup_lt_is_Some_2 (columns gdf) j) as [col Hcol].
    { rewrite Hcols, length_app. simpl. unfold k in Hj. lia. }
    destruct (stored_cell wkt str_label gdf new r row data j col
                Hnew Hnd Hrow Hdata Hcol) as (c' & Hc' & Hd & Hshape).
    assert (c' = c) as -> by congruence.
    exists data. split; [done|]. split; [done|].
    intros ->. apply Hshape. congruence. }
  assert (∀ r row, rows gdf !! r = Some row →
            ∃ data g, new !! r = Some data ∧ row !! k = Some (Shape g) ∧
                      data !! k = Some (Some (wkt g))) as Hshape.
  { intros r row Hrow.
    destruct (lookup_lt_is_Some_2 new r) as [data Hdata].
    { rewrite Hlen. by eapply lookup_lt_Some. }
    destruct (stored_cell wkt str_label gdf new r row data k "geometry"
                Hnew Hnd Hrow Hdata Hkcol) as (c & Hc & Hd & [g ->]);
      [done|].
    by exists data, g. }
  set (geometry := (λ row : list (cell G), default NaN (row !! k))
                     <$> rows gdf).
  assert (series_apply (convert_geometry wkt_loads null_is_nan)
            (column_at k (body t')) = Ok geometry) as Hgeometry.
  { apply series_apply_Ok. rewrite Hbody. unfold column_at, geometry.
    apply Forall2_fmap, Forall2_same_length_lookup. split; [done|].
    intros r data row Hdata Hrow.
    destruct (Hshape r row Hrow) as (data' & g & Hdata' & Hg & Hd).
    assert (data' = data) as -> by congruence.
    rewrite Hd, Hg. simpl.
    pose proof (Forall_lookup_1 _ _ _ _ Hinv Hrow) as Hrowinv.
    destruct (Forall_lookup_1 _ _ _ _ Hrowinv Hg) as [Hne Hload].
    exact (convert_geometry_success wkt_loads null_is_nan (wkt g) g
             Hne Hload). }
  rewrite (read_geometry_table _ _ _ _ _ Ht' Hk Hgeometry).
  eexists. split; [done|]. simpl. split; [done|]. split.
  { rewrite length_zip_with, Hbody. unfold geometry.
    rewrite length_fmap. lia. }
  intros r row Hrow.
  destruct (Hshape r row Hrow) as (data & g & Hdata & Hg & Hd).
  rewrite lookup_zip_with, Hbody, Hdata. simpl.
  unfold geometry. rewrite list_lookup_fmap, Hrow. simpl. rewrite Hg. simpl.
  eexists. split; [done|].
  intros j c Hj Hc. rewrite list_lookup_imap.
  destruct (Hcell r row j c Hrow Hj Hc) as (data' & Hdata' & Hdj & _).
  assert (data' = data) as -> by congruence.
  rewrite Hdj. simpl. case_decide as Hjk; [|done].
  subst j. congruence.
Qed.

End read_back.

Lemma tier_table_read_back_witness :
  ∃ conn' out,
    create_and_populate_tables interval_wkt pretty ∅ [provinces] = Ok conn' ∧
    read_table_as_gdf interval_loads true conn' (table_name_of 1) = Ok out ∧
    columns out = ["Service_Area_Zone_de_service"; "Name"] ++ ["Geometry"] ∧
    length (rows out) = length (rows provinces).
Proof.
  eassert (create_and_populate_tables interval_wkt pretty ∅ [provinces]
           = Ok _) as Hrun by (vm_compute; reflexivity).
  assert (NoDup (columns provinces)) as Hnd.
  { apply (bool_decide_unpack _). vm_compute. exact I. }
  destruct (tier_table_read_back interval_wkt pretty interval_loads true ∅
              [provinces] _ 0 provinces
              ["Service_Area_Zone_de_service"; "Name"]
              Hrun eq_refl eq_refl Hnd)
    as (out & Hread & Hcols & Hlen & _).
  - apply (bool_decide_unpack _). vm_compute. exact I.
  - reflexivity.
  - repeat constructor; vm_compute; done.
  - eexists. exists out. split; [exact Hrun|]. split; [exact Hread|].
    split; [exact Hcols|exact Hlen].
Defined.

(** ** Listing and reading tables *)


(** ** A run of the loader *)

Section run.
Context {G : Type} (intersects : G → G → bool).
Context (wkt : G → string) (str_label : nat → string).


End run.
